(** * PowerManagement: battery time remaining, health and publication

    A shallow embedding of
    - [pmconfigd/BatteryTimeRemaining.c] (the estimator, the health
      classifier, the snapshot builder and the diffing publisher), and
    - [AppleSmartBatteryManager/AppleSmartBatteryManagerUserClient.cpp]
      (the two privileged pass-through commands),
    followed by the properties established about them.

    C [int] is a 32-bit two's complement integer, carried as [Z];
    C [double] is IEEE 754 binary64, carried as [spec_float] with the
    operations of the standard library's executable specification;
    a [CFDictionary] keyed by strings is a [gmap string]. *)

From Stdlib Require Import ZArith Lia SpecFloat.
From stdpp Require Import base strings gmap list.

Local Open Scope Z_scope.

(** ** Machine integers *)

Module Int.

Definition min_signed : Z := - 2 ^ 31.
Definition max_signed : Z := 2 ^ 31 - 1.

(** The values an [int] object can hold. *)
Definition in_range (z : Z) : Prop := min_signed <= z <= max_signed.

(** Reduction of a mathematical result to the 32-bit representation. *)
Definition wrap (z : Z) : Z := (z + 2 ^ 31) mod 2 ^ 32 - 2 ^ 31.

(** [abs] of <stdlib.h>: the most negative value has no positive
    counterpart and comes back unchanged. *)
Definition abs (z : Z) : Z := wrap (Z.abs z).

(** [a - b] on [int]. *)
Definition sub (a b : Z) : Z := wrap (a - b).

End Int.

(** ** Doubles *)

Module Double.

Definition prec : Z := 53.
Definition emax : Z := 1024.

Definition double : Type := spec_float.

Definition of_Z (z : Z) : double := binary_normalize prec emax z 0 false.

Definition mul : double -> double -> double := SFmul prec emax.
Definition div : double -> double -> double := SFdiv prec emax.
Definition add : double -> double -> double := SFadd prec emax.
Definition ltb : double -> double -> bool := SFltb.
Definition leb : double -> double -> bool := SFleb.

(** The literals of the sources. [0.5] and [2.0] are powers of two;
    [0.80] and [0.83] are the doubles nearest to 4/5 and 83/100, which is
    what the correctly rounded quotient of the two integers yields. *)
Definition half : double := S754_finite false 4503599627370496 (-53).
Definition two : double := S754_finite false 4503599627370496 (-51).
Definition d0_80 : double := S754_finite false 7205759403792794 (-53).
Definition d0_83 : double := S754_finite false 7475975381435023 (-53).

(** The integer part of a finite double, rounding toward zero. *)
Definition truncate (d : double) : option Z :=
  match d with
  | S754_zero _ => Some 0
  | S754_finite s m e =>
      let a := if 0 <=? e then Z.shiftl (Zpos m) e
               else Z.shiftr (Zpos m) (- e) in
      Some (if s then - a else a)
  | _ => None
  end.

(** Conversion of a double to [int] on assignment. The fractional part is
    discarded; when the integer part does not fit (or the double is an
    infinity or a NaN) the C standard leaves the outcome open and the
    processor decides: [indefinite] is the value it delivers. *)
Definition to_int (indefinite : Z) (d : double) : Z :=
  match truncate d with
  | Some z => if (Int.min_signed <=? z) && (z <=? Int.max_signed) then z
              else indefinite
  | None => indefinite
  end.

(** [lround] of <math.h>: nearest integer, halves away from zero. The
    result type [long] is taken as 64 bits wide; the quotients rounded in
    this program are far below that. *)
Definition lround (d : double) : Z :=
  match d with
  | S754_zero _ => 0
  | S754_finite s m e =>
      let a := if 0 <=? e then Z.shiftl (Zpos m) e
               else Z.shiftr (Zpos m + Z.shiftl 1 (- e - 1)) (- e) in
      if s then - a else a
  | _ => - 2 ^ 63
  end.

End Double.

Import Double.

(** ** CoreFoundation values and the keys of the published records *)

Inductive CFType : Type :=
  | CFString (s : string)
  | CFNumber (n : Z)
  | CFBoolean (b : bool).

#[global] Instance CFType_eq_dec : EqDecision CFType.
Proof. solve_decision. Defined.

Abbreviation CFDictionary := (gmap string CFType).

Definition kCFBooleanTrue : CFType := CFBoolean true.
Definition kCFBooleanFalse : CFType := CFBoolean false.

(** [CFEqual] on two dictionaries is equality of their contents. *)
Definition CFEqual (a b : CFDictionary) : bool := bool_decide (a = b).

(** Keys and values of <IOKit/ps/IOPSKeys.h> and <IOKit/pwr_mgt/IOPM.h>. *)
Definition kIOPSFailureKey : string := "Failure".
Definition kBatteryPermFailureString : string := "Permanent Battery Failure".
Definition kIOPSBatteryHealthKey : string := "BatteryHealth".
Definition kIOPSHealthConfidenceKey : string := "HealthConfidence".
Definition kIOPSPoorValue : string := "Poor".
Definition kIOPSFairValue : string := "Fair".
Definition kIOPSGoodValue : string := "Good".
Definition kIOPSTransportTypeKey : string := "Transport Type".
Definition kIOPSInternalType : string := "Internal".
Definition kIOPSPowerSourceStateKey : string := "Power Source State".
Definition kIOPSACPowerValue : string := "AC Power".
Definition kIOPSBatteryPowerValue : string := "Battery Power".
Definition kIOPSMaxCapacityKey : string := "Max Capacity".
Definition kIOPSCurrentCapacityKey : string := "Current Capacity".
Definition kIOPSIsPresentKey : string := "Is Present".
Definition kIOPSIsChargingKey : string := "Is Charging".
Definition kIOPSTimeToFullChargeKey : string := "Time to Full Charge".
Definition kIOPSTimeToEmptyKey : string := "Time to Empty".
Definition kIOPSNameKey : string := "Name".
Definition kIOPMPSBatteryChargeStatusKey : string := "ChargeStatus".
Definition kIOPMPSErrorConditionKey : string := "ErrorCondition".
Definition kIOPMPSMaxCapacityKey : string := "MaxCapacity".
Definition kIOPMPSDesignCapacityKey : string := "DesignCapacity".
Definition kIOPMPSTimeRemainingKey : string := "TimeRemaining".
Definition kInstantAmperageKey : string := "InstantAmperage".
Definition kBatteryProvidesTRKey : string := "Battery Provides Time Remaining".
Definition kWaitingForTRKey : string := "Waiting For Time Remaining Estimates".

(** ** The battery record

    [IOPMBattery] is declared in PrivateLib.h. Its numeric members are C
    [int]s (they are passed to [abs], cast to [double] and boxed with
    [kCFNumberIntType]), its flags are one-bit fields, and its strings are
    references that may be NULL. [properties] is the dictionary read from
    the battery's registry entry; this file only asks which keys it has. *)

Record IOPMBattery : Type := mkBattery {
  properties : gset string;
  externalConnected : bool;
  isCharging : bool;
  isPresent : bool;
  markedNeedsReplacement : bool;
  currentCap : Z;
  maxCap : Z;
  designCap : Z;
  avgAmperage : Z;
  instantAmperage : Z;
  cycleCount : Z;
  hwAverageTR : Z;
  swCalculatedTR : Z;
  invalidWakeSecs : Z;
  failureDetected : option string;
  name : option string;
  dynamicStoreKey : string;
  chargeStatus : option string
}.

(** [b->swCalculatedTR = v] *)
Definition set_swCalculatedTR (v : Z) (b : IOPMBattery) : IOPMBattery :=
  mkBattery (properties b) (externalConnected b) (isCharging b) (isPresent b)
    (markedNeedsReplacement b) (currentCap b) (maxCap b) (designCap b)
    (avgAmperage b) (instantAmperage b) (cycleCount b) (hwAverageTR b)
    v (invalidWakeSecs b) (failureDetected b) (name b)
    (dynamicStoreKey b) (chargeStatus b).

(** [b->markedNeedsReplacement = v] *)
Definition set_markedNeedsReplacement (v : bool) (b : IOPMBattery) : IOPMBattery :=
  mkBattery (properties b) (externalConnected b) (isCharging b) (isPresent b)
    v (currentCap b) (maxCap b) (designCap b)
    (avgAmperage b) (instantAmperage b) (cycleCount b) (hwAverageTR b)
    (swCalculatedTR b) (invalidWakeSecs b) (failureDetected b) (name b)
    (dynamicStoreKey b) (chargeStatus b).

(** [_batteryHas(b, key)]: the registry entry carries the key. *)
Definition _batteryHas (b : IOPMBattery) (key : string) : bool :=
  bool_decide (key ∈ properties b).

(** ** Static globals of BatteryTimeRemaining.c

    [CFAbsoluteTime] is a [double] counting seconds from the reference
    date.
    A pending [_timeSettledTimer] is recorded by its fire date. *)

Record Globals : Type := mkGlobals {
  _estimatesInvalidUntil : double;
  _useBatteryTimeEstimate : bool;
  _ignoringTimeRemainingEstimates : bool;
  _timeSettledTimer : option double
}.

Definition globals_init : Globals :=
  mkGlobals (S754_zero false) false false None.

(** [_shouldTrustBatteryTimeEstimate(b)]; [keyFound] tells whether the
    'BALG' key could be read from the system management controller. *)
Definition _shouldTrustBatteryTimeEstimate
  (keyFound : bool) (b : IOPMBattery) : bool :=
  keyFound && _batteryHas b kIOPMPSTimeRemainingKey.

Definition kMaxBattMinutes : Z := 600.
Definition kSmartBattReserve_mAh : double := of_Z 200.

(** ** Time remaining *)

Section TimeRemaining.

(** What the processor stores when a double that does not fit is
    converted to [int]. *)
Variable indefinite : Z.

(** The bounds the average current is checked against. *)
Definition amperageBounds (b : IOPMBattery) : double * double :=
  let absValInstantCurrent := of_Z (Int.abs (instantAmperage b)) in
  if _batteryHas b kInstantAmperageKey
  then (mul absValInstantCurrent half, mul absValInstantCurrent two)
  else (of_Z 5, of_Z 15000).

(** The condition under which no estimate is made. *)
Definition estimateInvalid (g : Globals) (b : IOPMBattery) : bool :=
  let absValAvgCurrent := of_Z (Int.abs (avgAmperage b)) in
  let '(lowerAmperageBound, upperAmperageBound) := amperageBounds b in
  (0 =? avgAmperage b)
  || ltb absValAvgCurrent lowerAmperageBound
  || ltb upperAmperageBound absValAvgCurrent
  || _ignoringTimeRemainingEstimates g.

(** The manual calculation, before it is stored. *)
Definition manualMinutes (b : IOPMBattery) : double :=
  if isCharging b
  then mul (of_Z 60)
           (div (of_Z (Int.sub (maxCap b) (currentCap b))) (of_Z (avgAmperage b)))
  else mul (of_Z (-60))
           (div (of_Z (currentCap b)) (of_Z (avgAmperage b))).

(** The two adjustments that end an iteration. *)
Definition capTimeRemaining (b : IOPMBattery) : IOPMBattery :=
  let b := if swCalculatedTR b <? 0 then set_swCalculatedTR (-1) b else b in
  if kMaxBattMinutes <? swCalculatedTR b
  then set_swCalculatedTR kMaxBattMinutes b else b.

(** One iteration of the loop of [_populateTimeRemaining]. *)
Definition populateTimeRemaining_body (g : Globals) (b : IOPMBattery)
  : IOPMBattery :=
  if estimateInvalid g b then set_swCalculatedTR (-1) b
  else
    let b := if _useBatteryTimeEstimate g
             then set_swCalculatedTR (hwAverageTR b) b
             else set_swCalculatedTR (to_int indefinite (manualMinutes b)) b in
    capTimeRemaining b.

Definition kNothingToSeeHere : Z := 0.

Definition _populateTimeRemaining (g : Globals) (batts : list IOPMBattery)
  : Z * list IOPMBattery :=
  (kNothingToSeeHere, map (populateTimeRemaining_body g) batts).

End TimeRemaining.

(** ** Health and confidence *)

(** [CFEqual] on two strings, the first of which may be NULL. The test on
    the ErrorCondition key is what keeps a NULL away from it; a NULL is
    taken as unequal. *)
Definition CFStringEqual (a : option string) (b : string) : bool :=
  match a with
  | Some s => bool_decide (s = b)
  | None => false
  end.

(** The two nested tests that open [_setBatteryHealthConfidence]. *)
Definition permanentFailure (b : IOPMBattery) : bool :=
  _batteryHas b kIOPMPSErrorConditionKey
  && CFStringEqual (failureDetected b) kBatteryPermFailureString.

(** Full charge capacity plus the reserve, over the design capacity. *)
Definition healthRatio (b : IOPMBattery) : double :=
  div (add (of_Z (maxCap b)) kSmartBattReserve_mAh) (of_Z (designCap b)).

(** The dictionary and the battery are taken to exist (the function
    returns at once on a NULL); it yields the dictionary and the battery
    as it leaves them. *)
Definition _setBatteryHealthConfidence
  (outDict : CFDictionary) (b : IOPMBattery) : CFDictionary * IOPMBattery :=
  if negb (isPresent b) then (outDict, b)
  else if permanentFailure b then
    (<[kIOPSHealthConfidenceKey := CFString kIOPSGoodValue]>
       (<[kIOPSBatteryHealthKey := CFString kIOPSPoorValue]> outDict), b)
  else if _batteryHas b kIOPMPSMaxCapacityKey
          && _batteryHas b kIOPMPSDesignCapacityKey then
    let ratio := healthRatio b in
    let '(outDict, b) :=
      if markedNeedsReplacement b then
        if leb ratio d0_83 && (cycleCount b <? 300)
        then (<[kIOPSBatteryHealthKey := CFString kIOPSFairValue]> outDict, b)
        else (<[kIOPSBatteryHealthKey := CFString kIOPSGoodValue]> outDict,
              set_markedNeedsReplacement false b)
      else
        if leb ratio d0_80 && (cycleCount b <? 300)
        then (<[kIOPSBatteryHealthKey := CFString kIOPSFairValue]> outDict,
              set_markedNeedsReplacement true b)
        else (<[kIOPSBatteryHealthKey := CFString kIOPSGoodValue]> outDict, b)
    in
    (<[kIOPSHealthConfidenceKey := CFString kIOPSGoodValue]> outDict, b)
  else (outDict, b).

(** ** Packaging *)

(** [(set_capacity, set_charge)] *)
Definition capacityPercent (b : IOPMBattery) : Z * Z :=
  if negb (0 =? maxCap b) then
    let set_charge :=
      Int.wrap (lround (div (mul (of_Z (currentCap b)) (of_Z 100))
                            (of_Z (maxCap b)))) in
    (100, if (100 =? set_charge) && isCharging b then 99 else set_charge)
  else (0, 0).

(** The charging flag and the two times. *)
Definition setTimes (b : IOPMBattery) (mutDict : CFDictionary) : CFDictionary :=
  let minutes := swCalculatedTR b in
  let n0 := CFNumber 0 in
  let nneg1 := CFNumber (-1) in
  if negb (isPresent b) then
    <[kIOPSTimeToEmptyKey := n0]>
      (<[kIOPSTimeToFullChargeKey := n0]>
         (<[kIOPSIsChargingKey := kCFBooleanFalse]> mutDict))
  else if -1 =? minutes then
    <[kIOPSTimeToEmptyKey := nneg1]>
      (<[kIOPSTimeToFullChargeKey := nneg1]>
         (<[kIOPSIsChargingKey := CFBoolean (isCharging b)]> mutDict))
  else if isCharging b then
    <[kIOPSTimeToEmptyKey := n0]>
      (<[kIOPSTimeToFullChargeKey := CFNumber minutes]>
         (<[kIOPSIsChargingKey := kCFBooleanTrue]> mutDict))
  else
    let mutDict := <[kIOPSIsChargingKey := kCFBooleanFalse]> mutDict in
    if externalConnected b then
      <[kIOPSTimeToEmptyKey := n0]>
        (<[kIOPSTimeToFullChargeKey := n0]> mutDict)
    else
      <[kIOPSTimeToFullChargeKey := n0]>
        (<[kIOPSTimeToEmptyKey := CFNumber minutes]> mutDict).

(** One iteration of the loop of [_packageBatteryInfo]: the dictionary
    built for a battery, and the battery as the classifier leaves it.
    Allocations are taken to succeed. *)
Definition packageBatteryInfo_body (g : Globals) (b : IOPMBattery)
  : CFDictionary * IOPMBattery :=
  let mutDict : CFDictionary := ∅ in
  let mutDict := if _useBatteryTimeEstimate g
                 then <[kBatteryProvidesTRKey := kCFBooleanTrue]> mutDict
                 else mutDict in
  let mutDict := if _ignoringTimeRemainingEstimates g
                 then <[kWaitingForTRKey := kCFBooleanTrue]> mutDict
                 else mutDict in
  let mutDict := match failureDetected b with
                 | Some f => <[kIOPSFailureKey := CFString f]> mutDict
                 | None => mutDict
                 end in
  let mutDict := match chargeStatus b with
                 | Some c => <[kIOPMPSBatteryChargeStatusKey := CFString c]> mutDict
                 | None => mutDict
                 end in
  let mutDict := <[kIOPSTransportTypeKey := CFString kIOPSInternalType]> mutDict in
  let mutDict :=
    <[kIOPSPowerSourceStateKey :=
        CFString (if externalConnected b then kIOPSACPowerValue
                  else kIOPSBatteryPowerValue)]> mutDict in
  let '(set_capacity, set_charge) := capacityPercent b in
  let mutDict := <[kIOPSMaxCapacityKey := CFNumber set_capacity]> mutDict in
  let mutDict := <[kIOPSCurrentCapacityKey := CFNumber set_charge]> mutDict in
  let mutDict := <[kIOPSIsPresentKey := CFBoolean (isPresent b)]> mutDict in
  let mutDict := setTimes b mutDict in
  let '(mutDict, b) := _setBatteryHealthConfidence mutDict b in
  let mutDict :=
    <[kIOPSNameKey := CFString (default "Unnamed" (name b))]> mutDict in
  (mutDict, b).

(** [_packageBatteryInfo(ret)]: [ret[i]] for every battery (an entry of
    the zeroed array stays NULL only if it is never assigned), and the
    batteries afterwards. *)
Definition _packageBatteryInfo (g : Globals) (batts : list IOPMBattery)
  : list (option CFDictionary) * list IOPMBattery :=
  let r := map (packageBatteryInfo_body g) batts in
  (map (fun p => Some (fst p)) r, map snd r).

(** ** Publication *)

(** A call of [SCDynamicStoreSetValue]: the key and the value stored. *)
Definition StoreCall : Type := string * CFDictionary.

(** The body of the publishing loop of
    [BatteryTimeRemainingBatteriesHaveChanged], at index [i]: the state is
    the static array [old_battery] and the calls issued so far. *)
Definition publish_body
  (batteries : list IOPMBattery) (result : list (option CFDictionary))
  (st : list (option CFDictionary) * list StoreCall) (i : nat)
  : list (option CFDictionary) * list StoreCall :=
  let '(old_battery, calls) := st in
  match batteries !! i, result !! i with
  | Some b, Some (Some r) =>
      let calls :=
        match old_battery !! i with
        | Some (Some o) =>
            if negb (CFEqual o r) then calls ++ [(dynamicStoreKey b, r)]
            else calls
        | _ => calls ++ [(dynamicStoreKey b, r)]
        end in
      (<[i := Some r]> old_battery, calls)
  | _, _ => st
  end.

(** [for(i=0; i<batCount; i++)] *)
Definition publish
  (batteries : list IOPMBattery) (result : list (option CFDictionary))
  (old_battery : list (option CFDictionary))
  : list (option CFDictionary) * list StoreCall :=
  foldl (publish_body batteries result) (old_battery, [])
        (seq 0 (length batteries)).

(** [old_battery] as [calloc] hands it out on the first call. *)
Definition old_battery_init (batCount : nat) : list (option CFDictionary) :=
  replicate batCount None.

(** ** Discontinuities *)

(** [_discontinuityOccurred()], entered when [CFAbsoluteTimeGetCurrent]
    reads [now] and [_batteries()] is [batts]. The deadline is the sum of
    two doubles, the clock reading and [(double)b[0]->invalidWakeSecs].
    Any pending timer is invalidated and a new one is armed for the
    deadline. *)
Definition _discontinuityOccurred
  (now : double) (batts : list IOPMBattery) (g : Globals) : Globals :=
  match batts with
  | [] => g
  | b0 :: _ =>
      let lastDiscontinuity := now in
      let until := add lastDiscontinuity (of_Z (invalidWakeSecs b0)) in
      mkGlobals until (_useBatteryTimeEstimate g) true (Some until)
  end.

(** The assignments of [_timeRemainingMaybeValid], the timer's callback. *)
Definition _timeRemainingMaybeValid (g : Globals) : Globals :=
  mkGlobals (_estimatesInvalidUntil g) (_useBatteryTimeEstimate g) false None.

(** The clock together with the globals. *)
Record World : Type := mkWorld {
  clock : double;
  globals : Globals
}.

(** The states the tracker can be in. Time passes, but not up to the fire
    date of a pending timer: the instant the date is reached is the
    instant the callback runs. A discontinuity may occur at any time, with
    any battery array that [telemetry] admits at that reading of the
    clock. *)
Inductive reachable (telemetry : double -> list IOPMBattery -> Prop)
  (t0 : double) : World -> Prop :=
  | reach_init :
      reachable telemetry t0 (mkWorld t0 globals_init)
  | reach_tick w t :
      reachable telemetry t0 w ->
      leb (clock w) t = true ->
      (forall d, _timeSettledTimer (globals w) = Some d -> ltb t d = true) ->
      reachable telemetry t0 (mkWorld t (globals w))
  | reach_discontinuity w batts :
      reachable telemetry t0 w ->
      telemetry (clock w) batts ->
      reachable telemetry t0
        (mkWorld (clock w) (_discontinuityOccurred (clock w) batts (globals w)))
  | reach_timer w d :
      reachable telemetry t0 w ->
      _timeSettledTimer (globals w) = Some d ->
      reachable telemetry t0
        (mkWorld (if ltb (clock w) d then d else clock w)
                 (_timeRemainingMaybeValid (globals w))).

(** The relation between the flag and the clock. *)
Definition flag_tracks_clock (w : World) : Prop :=
  _ignoringTimeRemainingEstimates (globals w) = true
  <-> ltb (clock w) (_estimatesInvalidUntil (globals w)) = true.

(** The inputs of a discontinuity under which its deadline lies ahead:
    the primary battery asks for a positive number of seconds, and the
    clock reading is a binary64 value below 2^53 seconds, where
    consecutive doubles are at most a second apart (an empty array asks
    for nothing). *)
Definition positiveWakeSecs (now : double) (batts : list IOPMBattery) : Prop :=
  match batts with
  | [] => True
  | b0 :: _ =>
      0 < invalidWakeSecs b0 <= Int.max_signed
      /\ valid_binary prec emax now = true
      /\ ltb now (of_Z (2 ^ 53)) = true
  end.

(** What holds of the tracker between events, when every discontinuity
    has such inputs: the clock is at or after the reference date; with a
    timer pending the flag is set and the deadline, which is the timer's
    fire date, lies ahead; with none the flag is clear and the deadline
    has passed. *)
Definition tracker_inv (w : World) : Prop :=
  leb (S754_zero false) (clock w) = true
  /\ match _timeSettledTimer (globals w) with
     | Some d =>
         d = _estimatesInvalidUntil (globals w)
         /\ _ignoringTimeRemainingEstimates (globals w) = true
         /\ ltb (clock w) d = true
     | None =>
         _ignoringTimeRemainingEstimates (globals w) = false
         /\ leb (_estimatesInvalidUntil (globals w)) (clock w) = true
     end.

(** ** The user client of the battery manager *)

Module UserClient.

(** <IOKit/IOReturn.h>, as the [int] bit patterns. *)
Definition kIOReturnSuccess : Z := 0.
Definition kIOReturnNotPrivileged : Z := Int.wrap 0xE00002C1.
Definition kIOReturnBadArgument : Z := Int.wrap 0xE00002C2.

(** What a command does outside the client, in order. *)
Inductive Effect : Type :=
  | ClientHasPrivilege
  | DisableInflow (level : Z)
  | InhibitCharging (level : Z).

(** The control surface: the status each operation answers with. *)
Record AppleSmartBatteryManager : Type := mkManager {
  disableInflow : Z -> Z;
  inhibitCharging : Z -> Z
}.

(** The client: its provider, which may be missing, and what
    [clientHasPrivilege(fOwningTask, kIOClientPrivilegeAdministrator)]
    answers for the task that opened it. *)
Record AppleSmartBatteryManagerUserClient : Type := mkClient {
  fOwner : option AppleSmartBatteryManager;
  clientHasPrivilege : Z
}.

(** The outcome of a command: the value returned, the value written
    through [return_code], and the effects. *)
Record Outcome : Type := mkOutcome {
  returned : Z;
  return_code : Z;
  effects : list Effect
}.

Definition secureInflowDisable
  (this : AppleSmartBatteryManagerUserClient) (level : Z) : Outcome :=
  if negb ((level =? 0) || (level =? 1)) then
    mkOutcome kIOReturnSuccess kIOReturnBadArgument []
  else
    let ret := clientHasPrivilege this in
    let admin_priv := kIOReturnSuccess =? ret in
    match admin_priv, fOwner this with
    | true, Some owner =>
        mkOutcome kIOReturnSuccess (disableInflow owner level)
                  [ClientHasPrivilege; DisableInflow level]
    | _, _ =>
        mkOutcome kIOReturnSuccess kIOReturnNotPrivileged [ClientHasPrivilege]
    end.

Definition secureChargeInhibit
  (this : AppleSmartBatteryManagerUserClient) (level : Z) : Outcome :=
  if negb ((level =? 0) || (level =? 1)) then
    mkOutcome kIOReturnSuccess kIOReturnBadArgument []
  else
    let ret := clientHasPrivilege this in
    let admin_priv := kIOReturnSuccess =? ret in
    match admin_priv, fOwner this with
    | true, Some owner =>
        mkOutcome kIOReturnSuccess (inhibitCharging owner level)
                  [ClientHasPrivilege; InhibitCharging level]
    | _, _ =>
        mkOutcome kIOReturnSuccess kIOReturnNotPrivileged [ClientHasPrivilege]
    end.

(** The control surface was entered. *)
Definition invokesControlSurface (e : Effect) : bool :=
  match e with
  | ClientHasPrivilege => false
  | DisableInflow _ | InhibitCharging _ => true
  end.

End UserClient.

(** ** The entry points of the plugin *)

(** The statics of [BatteryTimeRemainingBatteriesHaveChanged], next to the
    globals of the file: the last power source and presence seen, and the
    array of the records last built, NULL until the first call. *)
Record Plugin : Type := mkPlugin {
  plugin_globals : Globals;
  _lastExternal : bool;
  _lastIsPresent : bool;
  old_battery : option (list (option CFDictionary))
}.

Definition plugin_init : Plugin := mkPlugin globals_init false false None.

(** [_useBatteryTimeEstimate = v] *)
Definition set_useBatteryTimeEstimate (v : bool) (g : Globals) : Globals :=
  mkGlobals (_estimatesInvalidUntil g) v
            (_ignoringTimeRemainingEstimates g) (_timeSettledTimer g).

(** [BatteryTimeRemainingBatteriesHaveChanged(batteries)], entered when
    the clock reads [now] and the 'BALG' key is readable or not
    ([keyFound]). [batteries] is the array of [_batteries()], which is
    also what the callers pass. The function reads [batteries[0]] without
    asking whether there is one: with an empty array it has no outcome.
    It yields the statics, the batteries as the cycle leaves them, and the
    calls made on the dynamic store. *)
Definition BatteryTimeRemainingBatteriesHaveChanged
  (indefinite : Z) (now : double) (keyFound : bool)
  (batteries : list IOPMBattery) (st : Plugin)
  : option (Plugin * list IOPMBattery * list StoreCall) :=
  match batteries with
  | [] => None
  | b :: _ =>
      let batCount := length batteries in
      let old := match old_battery st with
                 | Some old => old
                 | None => old_battery_init batCount
                 end in
      let external := externalConnected b in
      let g := if xorb (_lastExternal st) external
               then _discontinuityOccurred now batteries (plugin_globals st)
               else plugin_globals st in
      let present := isPresent b in
      let g := if present && negb (_lastIsPresent st)
               then set_useBatteryTimeEstimate
                      (_shouldTrustBatteryTimeEstimate keyFound b) g
               else g in
      let '(_, batteries) := _populateTimeRemaining indefinite g batteries in
      let '(result, batteries) := _packageBatteryInfo g batteries in
      let '(old, calls) := publish batteries result old in
      Some (mkPlugin g external present (Some old), batteries, calls)
  end.

(** [_timeRemainingMaybeValid], whole: the assignments, then the cycle. *)
Definition timeRemainingMaybeValid_callback
  (indefinite : Z) (now : double) (keyFound : bool)
  (batteries : list IOPMBattery) (st : Plugin)
  : option (Plugin * list IOPMBattery * list StoreCall) :=
  BatteryTimeRemainingBatteriesHaveChanged indefinite now keyFound batteries
    (mkPlugin (_timeRemainingMaybeValid (plugin_globals st))
              (_lastExternal st) (_lastIsPresent st) (old_battery st)).

(** <IOKit/IOMessage.h> *)
Definition kIOMessageSystemWillPowerOn : Z := 0xE0000320.

(** [BatteryTimeRemainingSleepWakeNotification(messageType)]; [now] is
    what the clock reads after the second the function waits. *)
Definition BatteryTimeRemainingSleepWakeNotification
  (messageType : Z) (now : double) (batteries : list IOPMBattery) (g : Globals)
  : Globals :=
  if kIOMessageSystemWillPowerOn =? messageType then
    match batteries with
    | _ :: _ => _discontinuityOccurred now batteries g
    | [] => g
    end
  else g.

(** [BatteryTimeRemaining_prime()], that is
    [_initializeBatteryCalculations()]: nothing without a battery, one
    cycle otherwise. *)
Definition BatteryTimeRemaining_prime
  (indefinite : Z) (now : double) (keyFound : bool)
  (batteries : list IOPMBattery) (st : Plugin)
  : option (Plugin * list IOPMBattery * list StoreCall) :=
  if (length batteries =? 0)%nat then Some (st, batteries, [])
  else BatteryTimeRemainingBatteriesHaveChanged indefinite now keyFound
         batteries st.

(** The dictionary of [_packageBatteryInfo] at the point where
    [_setBatteryHealthConfidence] is called on it. *)
Definition packageBatteryInfo_front (g : Globals) (b : IOPMBattery)
  : CFDictionary :=
  let mutDict : CFDictionary := ∅ in
  let mutDict := if _useBatteryTimeEstimate g
                 then <[kBatteryProvidesTRKey := kCFBooleanTrue]> mutDict
                 else mutDict in
  let mutDict := if _ignoringTimeRemainingEstimates g
                 then <[kWaitingForTRKey := kCFBooleanTrue]> mutDict
                 else mutDict in
  let mutDict := match failureDetected b with
                 | Some f => <[kIOPSFailureKey := CFString f]> mutDict
                 | None => mutDict
                 end in
  let mutDict := match chargeStatus b with
                 | Some c => <[kIOPMPSBatteryChargeStatusKey := CFString c]> mutDict
                 | None => mutDict
                 end in
  let mutDict := <[kIOPSTransportTypeKey := CFString kIOPSInternalType]> mutDict in
  let mutDict :=
    <[kIOPSPowerSourceStateKey :=
        CFString (if externalConnected b then kIOPSACPowerValue
                  else kIOPSBatteryPowerValue)]> mutDict in
  let mutDict :=
    <[kIOPSMaxCapacityKey := CFNumber (fst (capacityPercent b))]> mutDict in
  let mutDict :=
    <[kIOPSCurrentCapacityKey := CFNumber (snd (capacityPercent b))]> mutDict in
  let mutDict := <[kIOPSIsPresentKey := CFBoolean (isPresent b)]> mutDict in
  setTimes b mutDict.

(** *** The parts of a cycle

    Names for what [BatteryTimeRemainingBatteriesHaveChanged] computes on
    its way: the globals the estimator and the packager run under, and,
    for a battery, the record built and the battery left behind. *)

Definition cycle_globals
  (now : double) (keyFound : bool) (batteries : list IOPMBattery) (st : Plugin)
  : Globals :=
  match batteries with
  | [] => plugin_globals st
  | b :: _ =>
      let g := if xorb (_lastExternal st) (externalConnected b)
               then _discontinuityOccurred now batteries (plugin_globals st)
               else plugin_globals st in
      if isPresent b && negb (_lastIsPresent st)
      then set_useBatteryTimeEstimate
             (_shouldTrustBatteryTimeEstimate keyFound b) g
      else g
  end.

Definition cycle_record (indefinite : Z) (g : Globals) (b : IOPMBattery)
  : CFDictionary :=
  fst (packageBatteryInfo_body g (populateTimeRemaining_body indefinite g b)).

Definition cycle_battery (indefinite : Z) (g : Globals) (b : IOPMBattery)
  : IOPMBattery :=
  snd (packageBatteryInfo_body g (populateTimeRemaining_body indefinite g b)).

(** The array the loop compares with: the retained one, or a zeroed one
    on the first call. *)
Definition cycle_old (batteries : list IOPMBattery) (st : Plugin)
  : list (option CFDictionary) :=
  match old_battery st with
  | Some old => old
  | None => old_battery_init (length batteries)
  end.

(** *** Reading nonnegative doubles

    Used to relate the comparisons of the estimator to comparisons of
    integers. *)

(** The value of the double of mantissa [m] and exponent [e], times
    [2 ^ 1100]. *)
Definition scaled (m : positive) (e : Z) : Z := Zpos m * 2 ^ (e + 1100).

(** A nonnegative double in normal form: [+0], or a positive double with
    a mantissa of full width. *)
Definition canonical_nn (x : double) : Prop :=
  match x with
  | S754_zero false => True
  | S754_finite false m e => Zpos (digits2_pos m) = 53 /\ -1100 <= e
  | _ => False
  end.

(** Its value, times [2 ^ 1100]. *)
Definition scaled_value (x : double) : Z :=
  match x with
  | S754_finite false m e => scaled m e
  | _ => 0
  end.

(** *** What a run of the publisher is expected to do

    The description of the publisher, independent of the loop: a record
    is sent when it differs from the one retained for its index (none
    retained counts as a difference), and every record built is
    retained. *)

Definition differs (retained : option CFDictionary) (r : CFDictionary) : bool :=
  negb (bool_decide (retained = Some r)).

Fixpoint expected_calls
  (batteries : list IOPMBattery) (result old : list (option CFDictionary))
  : list StoreCall :=
  match batteries, result, old with
  | b :: batteries, r :: result, o :: old =>
      match r with
      | Some r => if differs o r then [(dynamicStoreKey b, r)] else []
      | None => []
      end ++ expected_calls batteries result old
  | _, _, _ => []
  end.

Fixpoint expected_retained (result old : list (option CFDictionary))
  : list (option CFDictionary) :=
  match result, old with
  | r :: result, o :: old =>
      match r with
      | Some r => Some r
      | None => o
      end :: expected_retained result old
  | _, _ => []
  end.

(** ** Sample telemetry *)

(** A battery on discharge, as a smart battery reports it. *)
Definition sample_discharging : IOPMBattery :=
  mkBattery
    {[ kInstantAmperageKey; kIOPMPSMaxCapacityKey; kIOPMPSDesignCapacityKey ]}
    false false true false
    4100 5000 5500 (-1000) (-1000) 120 250 0 30
    None (Some "InternalBattery-0")
    "State:/IOKit/PowerSources/InternalBattery-0" None.

(** The same battery with a given average current. *)
Definition with_avgAmperage (a : Z) (b : IOPMBattery) : IOPMBattery :=
  mkBattery (properties b) (externalConnected b) (isCharging b) (isPresent b)
    (markedNeedsReplacement b) (currentCap b) (maxCap b) (designCap b)
    a (instantAmperage b) (cycleCount b) (hwAverageTR b)
    (swCalculatedTR b) (invalidWakeSecs b) (failureDetected b) (name b)
    (dynamicStoreKey b) (chargeStatus b).

(** A battery in its slot whose full charge capacity has dropped to
    4300 mAh of 5500: with the reserve, 4500/5500, between the two
    thresholds. *)
Definition sample_worn (latched : bool) : IOPMBattery :=
  mkBattery
    {[ kInstantAmperageKey; kIOPMPSMaxCapacityKey; kIOPMPSDesignCapacityKey ]}
    false false true latched
    3000 4300 5500 (-1000) (-1000) 120 180 0 30
    None (Some "InternalBattery-0")
    "State:/IOKit/PowerSources/InternalBattery-0" None.

(** A battery in its slot that reports a permanent failure. *)
Definition sample_failed : IOPMBattery :=
  mkBattery
    {[ kIOPMPSErrorConditionKey; kIOPMPSMaxCapacityKey;
       kIOPMPSDesignCapacityKey ]}
    false false true true
    3000 4300 5500 (-1000) (-1000) 120 180 0 30
    (Some kBatteryPermFailureString) (Some "InternalBattery-0")
    "State:/IOKit/PowerSources/InternalBattery-0" None.

(** An empty slot whose registry entry carries the failure. *)
Definition sample_absent_failed : IOPMBattery :=
  mkBattery
    {[ kIOPMPSErrorConditionKey ]}
    false false false false
    0 0 0 0 0 0 0 0 30
    (Some kBatteryPermFailureString) None
    "State:/IOKit/PowerSources/InternalBattery-0" None.

(** A battery that reports an instantaneous current of zero. *)
Definition sample_zero_instant : IOPMBattery :=
  mkBattery {[ kInstantAmperageKey ]}
    false false true false
    4100 5000 5500 (-1000) 0 120 250 0 30
    None None "State:/IOKit/PowerSources/InternalBattery-0" None.

(** A charging battery that reads full. *)
Definition sample_charging_full : IOPMBattery :=
  mkBattery
    {[ kInstantAmperageKey; kIOPMPSMaxCapacityKey; kIOPMPSDesignCapacityKey ]}
    true true true false
    100 100 100 50 50 10 5 0 30
    None (Some "InternalBattery-0")
    "State:/IOKit/PowerSources/InternalBattery-0" None.

(** A battery whose driver asks for no delay after a wake. *)
Definition sample_no_wake_delay : IOPMBattery :=
  mkBattery
    {[ kInstantAmperageKey; kIOPMPSMaxCapacityKey; kIOPMPSDesignCapacityKey ]}
    false false true false
    4100 5000 5500 (-1000) (-1000) 120 250 0 0
    None (Some "InternalBattery-0")
    "State:/IOKit/PowerSources/InternalBattery-0" None.

(** A control surface that accepts every command, and two clients of it:
    one opened by an administrator, one not. *)
Definition sample_manager : UserClient.AppleSmartBatteryManager :=
  UserClient.mkManager (fun _ => UserClient.kIOReturnSuccess)
                       (fun _ => UserClient.kIOReturnSuccess).

Definition sample_admin_client : UserClient.AppleSmartBatteryManagerUserClient :=
  UserClient.mkClient (Some sample_manager) UserClient.kIOReturnSuccess.

Definition sample_user_client : UserClient.AppleSmartBatteryManagerUserClient :=
  UserClient.mkClient (Some sample_manager) UserClient.kIOReturnNotPrivileged.

(** A battery just put on charge, one mAh short of full, whose average
    current still shows the discharge; its driver does not report an
    instantaneous current. *)
Definition sample_charging_stale : IOPMBattery :=
  mkBattery
    {[ kIOPMPSMaxCapacityKey; kIOPMPSDesignCapacityKey ]}
    true true true false
    4999 5000 5500 (-200) 0 120 0 0 30
    None (Some "InternalBattery-0")
    "State:/IOKit/PowerSources/InternalBattery-0" None.

(** A battery in its slot, not yet latched, at 3200/5500 with the
    reserve: due to be latched. *)
Definition sample_degraded : IOPMBattery :=
  mkBattery
    {[ kInstantAmperageKey; kIOPMPSMaxCapacityKey; kIOPMPSDesignCapacityKey ]}
    false false true false
    2000 3000 5500 (-1000) (-1000) 120 180 0 30
    None (Some "InternalBattery-0")
    "State:/IOKit/PowerSources/InternalBattery-0" None.

(** A battery in its slot whose registry entry has the design capacity
    but no MaxCapacity key, so that its [maxCap] reads 0: 200/5500 with
    the reserve. *)
Definition sample_no_max_capacity : IOPMBattery :=
  mkBattery
    {[ kInstantAmperageKey; kIOPMPSDesignCapacityKey ]}
    false false true false
    4100 0 5500 (-1000) (-1000) 120 250 0 30
    None (Some "InternalBattery-0")
    "State:/IOKit/PowerSources/InternalBattery-0" None.

(** * Properties *)

(** ** The estimator *)

Section EstimatorFacts.

Variable indefinite : Z.

Lemma swCalculatedTR_set v b : swCalculatedTR (set_swCalculatedTR v b) = v.
Proof. reflexivity. Qed.

Lemma capTimeRemaining_spec b :
  swCalculatedTR (capTimeRemaining b)
  = if swCalculatedTR b <? 0 then -1
    else if kMaxBattMinutes <? swCalculatedTR b then kMaxBattMinutes
    else swCalculatedTR b.
Proof.
  unfold capTimeRemaining.
  destruct (swCalculatedTR b <? 0) eqn:Hneg.
  - rewrite swCalculatedTR_set. reflexivity.
  - destruct (kMaxBattMinutes <? swCalculatedTR b); reflexivity.
Qed.

Lemma capTimeRemaining_range b :
  swCalculatedTR (capTimeRemaining b) = -1
  \/ 0 <= swCalculatedTR (capTimeRemaining b) <= 600.
Proof.
  rewrite capTimeRemaining_spec. unfold kMaxBattMinutes.
  destruct (swCalculatedTR b <? 0) eqn:Hneg; [left; reflexivity|].
  destruct (600 <? swCalculatedTR b) eqn:Hbig; lia.
Qed.

Lemma populate_lookup g batts i :
  snd (_populateTimeRemaining indefinite g batts) !! i
  = populateTimeRemaining_body indefinite g <$> batts !! i.
Proof. unfold _populateTimeRemaining. simpl. apply list_lookup_fmap. Qed.

Lemma estimateInvalid_unfold g b :
  estimateInvalid g b
  = (0 =? avgAmperage b)
    || ltb (of_Z (Int.abs (avgAmperage b))) (fst (amperageBounds b))
    || ltb (snd (amperageBounds b)) (of_Z (Int.abs (avgAmperage b)))
    || _ignoringTimeRemainingEstimates g.
Proof. unfold estimateInvalid. destruct (amperageBounds b). reflexivity. Qed.

End EstimatorFacts.

(** ** Integers and doubles *)

Lemma wrap_in_range z : Int.in_range z -> Int.wrap z = z.
Proof.
  unfold Int.in_range, Int.min_signed, Int.max_signed, Int.wrap. intros H.
  rewrite Z.mod_small by lia. lia.
Qed.

Lemma abs_in_range z :
  Int.in_range z ->
  (z = Int.min_signed /\ Int.abs z = Int.min_signed)
  \/ (z <> Int.min_signed /\ Int.abs z = Z.abs z).
Proof.
  unfold Int.in_range, Int.min_signed, Int.max_signed. intros H.
  destruct (Z.eq_dec z (- 2 ^ 31)) as [->|Hne].
  - left. split; reflexivity.
  - right. split; [assumption|]. unfold Int.abs. apply wrap_in_range.
    unfold Int.in_range, Int.min_signed, Int.max_signed. lia.
Qed.

Lemma digits2_pos_iter p k :
  digits2_pos (Pos.iter xO p k) = (digits2_pos p + k)%positive.
Proof.
  induction k as [|k IH] using Pos.peano_ind.
  - simpl. lia.
  - rewrite Pos.iter_succ. simpl. rewrite IH. lia.
Qed.

Lemma Zpos_iter_xO p k : Zpos (Pos.iter xO p k) = Zpos p * 2 ^ Zpos k.
Proof.
  induction k as [|k IH] using Pos.peano_ind.
  - simpl. lia.
  - rewrite Pos.iter_succ, (Pos2Z.inj_xO (Pos.iter xO p k)), IH, Pos2Z.inj_succ, Z.pow_succ_r by lia.
    lia.
Qed.

(** The number of binary digits brackets the number. *)
Lemma digits2_pos_bounds p :
  2 ^ (Zpos (digits2_pos p) - 1) <= Zpos p < 2 ^ Zpos (digits2_pos p).
Proof.
  induction p as [p IH|p IH|]; simpl digits2_pos.
  - rewrite Pos2Z.inj_succ, (Pos2Z.inj_xI p).
    replace (Z.succ (Zpos (digits2_pos p)) - 1)
      with (Z.succ (Zpos (digits2_pos p) - 1)) by lia.
    rewrite !Z.pow_succ_r by lia. lia.
  - rewrite Pos2Z.inj_succ, (Pos2Z.inj_xO p).
    replace (Z.succ (Zpos (digits2_pos p)) - 1)
      with (Z.succ (Zpos (digits2_pos p) - 1)) by lia.
    rewrite !Z.pow_succ_r by lia. lia.
  - simpl. lia.
Qed.

(** A mantissa of full width at an exponent in range is left alone by
    rounding. *)
Lemma binary_round_aux_canonical s m e :
  Zpos (digits2_pos m) = 53 -> -1074 <= e <= 971 ->
  binary_round_aux prec emax s (Zpos m) e loc_Exact = S754_finite s m e.
Proof.
  intros Hd He.
  unfold binary_round_aux, shr_fexp, fexp, emin, Zdigits2, prec, emax.
  rewrite Hd.
  replace (Z.max (53 + e - 53) (3 - 1024 - 53) - e) with 0 by lia.
  cbn [shr shr_record_of_loc shr_m loc_of_shr_record round_nearest_even Zdigits2].
  rewrite Hd.
  replace (Z.max (53 + e - 53) (3 - 1024 - 53) - e) with 0 by lia.
  cbn [shr shr_record_of_loc shr_m].
  replace (e <=? 1024 - 53) with true by (symmetry; apply Z.leb_le; lia).
  reflexivity.
Qed.

(** An integer of at most 53 bits converts exactly: the mantissa is the
    integer shifted to full width. *)
Lemma binary_round_small s p :
  Zpos (digits2_pos p) <= 53 ->
  exists m e, binary_round prec emax s p 0 = S754_finite s m e
    /\ Zpos (digits2_pos m) = 53
    /\ e = Zpos (digits2_pos p) - 53
    /\ Zpos m = Zpos p * 2 ^ (- e).
Proof.
  intros Hd. unfold binary_round, shl_align, fexp, emin, prec, emax.
  replace (Z.max (Z.pos (digits2_pos p) + 0 - 53) (3 - 1024 - 53) - 0)
    with (Z.pos (digits2_pos p) - 53) by lia.
  replace (Z.max (Z.pos (digits2_pos p) + 0 - 53) (3 - 1024 - 53))
    with (Z.pos (digits2_pos p) - 53) by lia.
  destruct (Z.pos (digits2_pos p) - 53) as [|q|q] eqn:Hq; try lia.
  - exists p, 0.
    pose proof (binary_round_aux_canonical s p 0) as Hc.
    unfold prec, emax in Hc. rewrite Hc by lia.
    repeat split; lia.
  - exists (Pos.iter xO p q), (Z.neg q).
    pose proof (binary_round_aux_canonical s (Pos.iter xO p q) (Z.neg q)) as Hc.
    unfold prec, emax in Hc. rewrite digits2_pos_iter in Hc.
    rewrite Hc by lia.
    repeat split; try lia.
    + rewrite digits2_pos_iter. lia.
    + rewrite Zpos_iter_xO. reflexivity.
Qed.

(** Integers below [2 ^ 53] have at most 53 digits. *)
Lemma digits2_pos_small p : Zpos p < 2 ^ 53 -> Zpos (digits2_pos p) <= 53.
Proof.
  intros Hp. pose proof (digits2_pos_bounds p) as [Hlo _].
  destruct (Z_le_gt_dec (Zpos (digits2_pos p)) 53) as [|Hgt]; [assumption|].
  exfalso.
  assert (2 ^ 53 <= 2 ^ (Zpos (digits2_pos p) - 1))
    by (apply Z.pow_le_mono_r; lia).
  lia.
Qed.

Lemma of_Z_positive z :
  0 < z < 2 ^ 53 -> exists m e, of_Z z = S754_finite false m e.
Proof.
  intros [Hpos Hlt]. destruct z as [|p|p]; try lia.
  destruct (binary_round_small false p (digits2_pos_small p Hlt))
    as (m & e & Heq & _).
  exists m, e. exact Heq.
Qed.

Lemma of_Z_negative z :
  - 2 ^ 53 < z < 0 -> exists m e, of_Z z = S754_finite true m e.
Proof.
  intros [Hlt Hneg]. destruct z as [|p|p]; try lia.
  assert (Hp : Zpos p < 2 ^ 53) by lia.
  destruct (binary_round_small true p (digits2_pos_small p Hp))
    as (m & e & Heq & _).
  exists m, e. exact Heq.
Qed.

(** Multiplying a double by a power of two moves its exponent. *)
Lemma mul_pow52 m : (m * 4503599627370496 = Pos.iter xO m 52)%positive.
Proof. rewrite Pos.mul_comm. reflexivity. Qed.

Lemma shr_52 m e :
  shr (Build_shr_record (Zpos (Pos.iter xO m 52)) false false) e 52
  = (Build_shr_record (Zpos m) false false, e + 52).
Proof. reflexivity. Qed.

Lemma mul_pow2 m e k :
  Zpos (digits2_pos m) = 53 -> -1074 <= e + k <= 971 ->
  mul (S754_finite false m e) (S754_finite false 4503599627370496 (k - 52))
  = S754_finite false m (e + k).
Proof.
  intros Hd He. unfold mul, SFmul. cbn [xorb].
  rewrite mul_pow52.
  unfold binary_round_aux, shr_fexp, fexp, emin, Zdigits2, prec, emax.
  rewrite digits2_pos_iter, Pos2Z.inj_add, Hd.
  replace (Z.max (53 + 52 + (e + (k - 52)) - 53) (3 - 1024 - 53) - (e + (k - 52)))
    with 52 by lia.
  cbn [shr_record_of_loc]. rewrite shr_52.
  cbn [shr_m loc_of_shr_record round_nearest_even Zdigits2].
  rewrite Hd.
  replace (Z.max (53 + (e + (k - 52) + 52) - 53) (3 - 1024 - 53) - (e + (k - 52) + 52)) with 0 by lia.
  cbn [shr shr_record_of_loc shr_m].
  replace (e + (k - 52) + 52 <=? 1024 - 53) with true by (symmetry; apply Z.leb_le; lia).
  f_equal. lia.
Qed.

(** Doubles of full-width mantissa compare as their values do. *)
Lemma scaled_lt_exp m1 e1 m2 e2 :
  Zpos (digits2_pos m1) = 53 -> Zpos (digits2_pos m2) = 53 ->
  -1100 <= e1 -> e1 < e2 ->
  scaled m1 e1 < scaled m2 e2.
Proof.
  intros H1 H2 Hlo Hlt. unfold scaled.
  pose proof (digits2_pos_bounds m1) as B1. rewrite H1 in B1.
  pose proof (digits2_pos_bounds m2) as B2. rewrite H2 in B2.
  change (2 ^ (53 - 1)) with 4503599627370496 in *.
  change (2 ^ 53) with 9007199254740992 in *.
  replace (e2 + 1100) with ((e2 - e1 - 1) + 1 + (e1 + 1100)) by lia.
  rewrite (Z.pow_add_r 2 (e2 - e1 - 1 + 1) (e1 + 1100)),
    (Z.pow_add_r 2 (e2 - e1 - 1) 1) by lia.
  assert (0 < 2 ^ (e1 + 1100)) by (apply Z.pow_pos_nonneg; lia).
  assert (1 <= 2 ^ (e2 - e1 - 1)) by (apply Z.pow_le_mono_r with (b := 0) (a := 2); lia).
  change (2 ^ 1) with 2.
  set (P := 2 ^ (e1 + 1100)) in *. set (Q := 2 ^ (e2 - e1 - 1)) in *.
  assert (Z.pos m1 * P < 9007199254740992 * P)
    by (apply Z.mul_lt_mono_pos_r; lia).
  assert (P <= Q * P) by nia.
  assert (9007199254740992 * P <= Z.pos m2 * 2 * (Q * P)) by nia.
  lia.
Qed.

Lemma ltb_canonical m1 e1 m2 e2 :
  Zpos (digits2_pos m1) = 53 -> Zpos (digits2_pos m2) = 53 ->
  -1100 <= e1 -> -1100 <= e2 ->
  ltb (S754_finite false m1 e1) (S754_finite false m2 e2)
  = (scaled m1 e1 <? scaled m2 e2).
Proof.
  intros H1 H2 L1 L2. unfold ltb, SFltb, SFcompare.
  destruct (Z.compare_spec e1 e2) as [->|Hlt|Hgt].
  - unfold scaled.
    assert (0 < 2 ^ (e2 + 1100)) by (apply Z.pow_pos_nonneg; lia).
    change (Pos.compare_cont Eq m1 m2) with (Zpos m1 ?= Zpos m2).
    destruct (Z.compare_spec (Zpos m1) (Zpos m2)) as [Heq|Hl|Hg];
      symmetry; [apply Z.ltb_ge|apply Z.ltb_lt|apply Z.ltb_ge]; nia.
  - symmetry. apply Z.ltb_lt. apply scaled_lt_exp; assumption.
  - symmetry. apply Z.ltb_ge. apply Z.lt_le_incl.
    apply scaled_lt_exp; assumption.
Qed.

Lemma scaled_pos m e : -1100 <= e -> 0 < scaled m e.
Proof.
  intros He. unfold scaled.
  assert (0 < 2 ^ (e + 1100)) by (apply Z.pow_pos_nonneg; lia). lia.
Qed.

Lemma ltb_canonical_nn x y :
  canonical_nn x -> canonical_nn y ->
  ltb x y = (scaled_value x <? scaled_value y).
Proof.
  destruct x as [[|]|[|]| |[|] m1 e1], y as [[|]|[|]| |[|] m2 e2];
    simpl; try contradiction; intros Hx Hy.
  - reflexivity.
  - destruct Hy as [_ He]. pose proof (scaled_pos m2 e2 He).
    symmetry. apply Z.ltb_lt. assumption.
  - destruct Hx as [_ He]. pose proof (scaled_pos m1 e1 He).
    symmetry. apply Z.ltb_ge. lia.
  - destruct Hx, Hy. apply ltb_canonical; assumption.
Qed.

(** The shape of a converted integer, and of its half and its double. *)
Lemma of_Z_scaled z k :
  0 <= z < 2 ^ 53 -> -1 <= k <= 1 ->
  let x := mul (of_Z z) (S754_finite false 4503599627370496 (k - 52)) in
  canonical_nn (of_Z z) /\ scaled_value (of_Z z) = z * 2 ^ 1100
  /\ canonical_nn x /\ scaled_value x = z * 2 ^ (1100 + k).
Proof.
  intros Hz Hk x. subst x. destruct z as [|p|p]; try lia.
  - destruct Hk as [? ?]. vm_compute. repeat split; auto.
  - assert (Hp : Zpos p < 2 ^ 53) by lia.
    destruct (binary_round_small false p (digits2_pos_small p Hp))
      as (m & e & Heq & Hd & He & Hm).
    pose proof (digits2_pos_bounds p) as [_ Hhi].
    assert (1 <= Zpos (digits2_pos p)) by lia.
    pose proof (digits2_pos_small p Hp) as Hsmall.
    assert (Hof : of_Z (Zpos p) = S754_finite false m e) by exact Heq.
    rewrite Hof, mul_pow2 by (try assumption; lia).
    assert (Hv : forall j, -1 <= j <= 1 ->
              scaled m (e + j) = Zpos p * 2 ^ (1100 + j)).
    { intros j Hj. unfold scaled. rewrite Hm.
      rewrite <- Z.mul_assoc, <- Z.pow_add_r by lia. f_equal. f_equal. lia. }
    simpl. repeat split; try assumption; try lia.
    + rewrite <- (Z.add_0_r e). rewrite Hv by lia. f_equal.
    + apply Hv. lia.
Qed.

(** The three comparisons of the estimator, on integers. *)
Lemma scaled_ltb_shift a b j :
  0 <= j <= 1 ->
  (a * 2 ^ (1099 + j) <? b * 2 ^ 1099) = (a * 2 ^ j <? b).
Proof.
  intros Hj. rewrite Z.pow_add_r by lia.
  assert (0 < 2 ^ 1099) by (apply Z.pow_pos_nonneg; lia).
  destruct (Z.ltb_spec (a * 2 ^ j) b);
    [apply Z.ltb_lt|apply Z.ltb_ge]; nia.
Qed.

Lemma ltb_half_of_Z a b :
  0 <= a < 2 ^ 53 -> 0 <= b < 2 ^ 53 ->
  ltb (of_Z a) (mul (of_Z b) half) = (2 * a <? b).
Proof.
  intros Ha Hb.
  destruct (of_Z_scaled a 0 Ha) as (Ca & Va & _); [lia|].
  destruct (of_Z_scaled b (-1) Hb) as (_ & _ & Cb & Vb); [lia|].
  change (S754_finite false 4503599627370496 (-1 - 52)) with half in Cb, Vb.
  rewrite ltb_canonical_nn, Va, Vb by assumption.
  change (1100 + -1) with 1099. change 1100 with (1099 + 1).
  rewrite scaled_ltb_shift by lia. f_equal. lia.
Qed.

Lemma ltb_two_of_Z a b :
  0 <= a < 2 ^ 53 -> 0 <= b < 2 ^ 53 ->
  ltb (mul (of_Z b) two) (of_Z a) = (2 * b <? a).
Proof.
  intros Ha Hb.
  destruct (of_Z_scaled a 0 Ha) as (Ca & Va & _); [lia|].
  destruct (of_Z_scaled b 1 Hb) as (_ & _ & Cb & Vb); [lia|].
  change (S754_finite false 4503599627370496 (1 - 52)) with two in Cb, Vb.
  rewrite ltb_canonical_nn, Va, Vb by assumption.
  change (1100 + 1) with (1099 + 1 + 1). change 1100 with (1099 + 1).
  rewrite !Z.pow_add_r by lia.
  assert (0 < 2 ^ 1099) by (apply Z.pow_pos_nonneg; lia).
  change (2 ^ 1) with 2.
  destruct (Z.ltb_spec (2 * b) a); [apply Z.ltb_lt|apply Z.ltb_ge]; nia.
Qed.

Lemma ltb_of_Z a b :
  0 <= a < 2 ^ 53 -> 0 <= b < 2 ^ 53 ->
  ltb (of_Z a) (of_Z b) = (a <? b).
Proof.
  intros Ha Hb.
  destruct (of_Z_scaled a 0 Ha) as (Ca & Va & _); [lia|].
  destruct (of_Z_scaled b 0 Hb) as (Cb & Vb & _); [lia|].
  rewrite ltb_canonical_nn, Va, Vb by assumption.
  assert (0 < 2 ^ 1100) by (apply Z.pow_pos_nonneg; lia).
  destruct (Z.ltb_spec a b); [apply Z.ltb_lt|apply Z.ltb_ge]; nia.
Qed.

(** ** Rounding of sums

    [SFadd] aligns the two mantissas at the smaller exponent, adds them
    and rounds the sum to 53 digits by shifting it right. *)

Lemma shr_1_m mrs :
  0 <= shr_m mrs -> 0 <= shr_m (shr_1 mrs) /\ shr_m (shr_1 mrs) = shr_m mrs / 2.
Proof.
  destruct mrs as [m r s]. cbn [shr_m shr_1].
  destruct m as [|[p|p|]|p]; cbn [shr_m]; intros H;
    [split; [lia|reflexivity]
    |split; [lia|rewrite (Pos2Z.inj_xI p);
                 apply Z.div_unique with 1; lia]
    |split; [lia|rewrite (Pos2Z.inj_xO p);
                 apply Z.div_unique with 0; lia]
    |split; [lia|reflexivity]
    |lia].
Qed.

Lemma iter_shr_1_m p : forall mrs,
  0 <= shr_m mrs ->
  0 <= shr_m (SpecFloat.iter_pos shr_1 p mrs)
  /\ shr_m (SpecFloat.iter_pos shr_1 p mrs) = shr_m mrs / 2 ^ Zpos p.
Proof.
  induction p as [p IH|p IH|]; intros mrs H; cbn [SpecFloat.iter_pos].
  - destruct (shr_1_m mrs H) as [H1 E1].
    destruct (IH _ H1) as [H2 E2]. destruct (IH _ H2) as [H3 E3].
    split; [exact H3|]. rewrite E3, E2, E1.
    assert (0 < 2 ^ Zpos p) by (apply Z.pow_pos_nonneg; lia).
    rewrite !Z.div_div by lia. f_equal.
    replace (Zpos p~1) with (1 + Zpos p + Zpos p) by lia.
    rewrite !Z.pow_add_r by lia. change (2 ^ 1) with 2. ring.
  - destruct (IH _ H) as [H2 E2]. destruct (IH _ H2) as [H3 E3].
    split; [exact H3|]. rewrite E3, E2.
    assert (0 < 2 ^ Zpos p) by (apply Z.pow_pos_nonneg; lia).
    rewrite !Z.div_div by lia. f_equal.
    replace (Zpos p~0) with (Zpos p + Zpos p) by lia.
    rewrite !Z.pow_add_r by lia. change (2 ^ 1) with 2. ring.
  - apply shr_1_m. exact H.
Qed.

(** Shifting right drops the low bits of the mantissa. *)
Lemma shr_spec mrs e k :
  0 <= shr_m mrs -> 0 <= k ->
  exists mrs', shr mrs e k = (mrs', e + k)
    /\ shr_m mrs' = shr_m mrs / 2 ^ k.
Proof.
  intros Hm Hk. destruct k as [|p|p]; try lia.
  - exists mrs. cbn [shr]. rewrite Z.add_0_r, Z.div_1_r. split; reflexivity.
  - exists (SpecFloat.iter_pos shr_1 p mrs). cbn [shr].
    split; [reflexivity|]. apply iter_shr_1_m. exact Hm.
Qed.

Lemma round_nearest_even_bounds m l :
  m <= round_nearest_even m l <= m + 1.
Proof.
  destruct l as [|[| |]]; cbn [round_nearest_even];
    try destruct (Z.even m); lia.
Qed.

Lemma digits2_pos_ge p n : 2 ^ (n - 1) <= Zpos p -> n <= Zpos (digits2_pos p).
Proof.
  intros H. pose proof (digits2_pos_bounds p) as [_ Hhi].
  destruct (Z_le_gt_dec n (Zpos (digits2_pos p))) as [|Hgt]; [assumption|].
  exfalso.
  assert (2 ^ Zpos (digits2_pos p) <= 2 ^ (n - 1))
    by (apply Z.pow_le_mono_r; lia).
  lia.
Qed.

Lemma digits2_pos_le p n : Zpos p < 2 ^ n -> Zpos (digits2_pos p) <= n.
Proof.
  intros H. pose proof (digits2_pos_bounds p) as [Hlo _].
  destruct (Z_le_gt_dec (Zpos (digits2_pos p)) n) as [|Hgt]; [assumption|].
  exfalso.
  assert (2 ^ n <= 2 ^ (Zpos (digits2_pos p) - 1))
    by (apply Z.pow_le_mono_r; lia).
  lia.
Qed.

(** Rounding a mantissa of 53 digits or more: the result is the mantissa
    with its low digits dropped, or the next one up, at the exponent
    raised by their number (or by one more, when rounding up carries). *)
Lemma binary_round_aux_lower (M : positive) (ez : Z) :
  53 <= Zpos (digits2_pos M) -> -1074 <= ez ->
  let k := Zpos (digits2_pos M) - 53 in
  let r := binary_round_aux prec emax false (Zpos M) ez loc_Exact in
  r = S754_infinity false
  \/ exists m'' e'', r = S754_finite false m'' e''
       /\ ((e'' = ez + k /\ Zpos M / 2 ^ k <= Zpos m'') \/ e'' = ez + k + 1).
Proof.
  intros Hd Hez k r. subst r.
  pose proof (digits2_pos_bounds M) as [Mlo Mhi].
  assert (Hk : 0 <= k) by (subst k; lia).
  assert (Hpk : 0 < 2 ^ k) by (apply Z.pow_pos_nonneg; lia).
  unfold binary_round_aux, shr_fexp, fexp, emin, prec, emax.
  cbn [Zdigits2 shr_record_of_loc].
  replace (Z.max (Zpos (digits2_pos M) + ez - 53) (3 - 1024 - 53) - ez)
    with k by (subst k; lia).
  destruct (shr_spec (Build_shr_record (Zpos M) false false) ez k)
    as (mrs' & Heq & Hm'); [cbn [shr_m]; lia|exact Hk|].
  rewrite Heq. cbn [shr_m] in Hm'.
  assert (Hlo' : 2 ^ 52 <= shr_m mrs').
  { rewrite Hm'. apply Z.div_le_lower_bound; [lia|].
    rewrite <- Z.pow_add_r by lia.
    replace (k + 52) with (Zpos (digits2_pos M) - 1) by (subst k; lia).
    exact Mlo. }
  assert (Hhi' : shr_m mrs' < 2 ^ 53).
  { rewrite Hm'. apply Z.div_lt_upper_bound; [lia|].
    rewrite <- Z.pow_add_r by lia.
    replace (k + 53) with (Zpos (digits2_pos M)) by (subst k; lia).
    exact Mhi. }
  pose proof (round_nearest_even_bounds (shr_m mrs') (loc_of_shr_record mrs'))
    as [Rlo Rhi].
  set (m1 := round_nearest_even (shr_m mrs') (loc_of_shr_record mrs')) in *.
  change (2 ^ 52) with 4503599627370496 in *.
  change (2 ^ 53) with 9007199254740992 in *.
  destruct m1 as [|q|q] eqn:Hm1; try lia.
  cbn [Zdigits2].
  assert (Hq : 53 <= Zpos (digits2_pos q) <= 54).
  { split.
    - apply digits2_pos_ge. change (2 ^ (53 - 1)) with 4503599627370496. lia.
    - apply digits2_pos_le. change (2 ^ 54) with 18014398509481984. lia. }
  set (k2 := Z.max (Zpos (digits2_pos q) + (ez + k) - 53) (3 - 1024 - 53)
             - (ez + k)).
  assert (Hk2 : k2 = Zpos (digits2_pos q) - 53) by (subst k2; lia).
  destruct (shr_spec (Build_shr_record (Zpos q) false false) (ez + k) k2)
    as (mrs'' & Heq2 & Hm''); [cbn [shr_m]; lia|lia|].
  rewrite Heq2. cbn [shr_m] in Hm''.
  assert (Hpos : 0 < shr_m mrs'').
  { rewrite Hm''. apply Z.div_str_pos.
    assert (k2 = 0 \/ k2 = 1) as [->| ->] by lia.
    - change (2 ^ 0) with 1. lia.
    - change (2 ^ 1) with 2. lia. }
  destruct (shr_m mrs'') as [|m''|m''] eqn:Hm2; try lia.
  destruct (ez + k + k2 <=? 1024 - 53); [|left; reflexivity].
  right. exists m'', (ez + k + k2). split; [reflexivity|].
  assert (k2 = 0 \/ k2 = 1) as [E|E] by lia; [left|right; lia].
  split; [lia|]. rewrite E in Hm''. change (2 ^ 0) with 1 in Hm''.
  rewrite Z.div_1_r in Hm''. rewrite <- Hm', Hm''. lia.
Qed.

Lemma shl_align_value m e ez :
  ez <= e -> Zpos (fst (shl_align m e ez)) = Zpos m * 2 ^ (e - ez).
Proof.
  intros H. unfold shl_align.
  destruct (ez - e) as [|d|d] eqn:Hd; try lia; cbn [fst].
  - replace (e - ez) with 0 by lia. change (2 ^ 0) with 1. lia.
  - rewrite Zpos_iter_xO. f_equal. f_equal. lia.
Qed.

Lemma shl_align_id m e e' : e <= e' -> shl_align m e e' = (m, e).
Proof.
  intros H. unfold shl_align. destruct (e' - e) eqn:Hd; try lia; reflexivity.
Qed.

Lemma ltb_finite_iff m e h eh :
  ltb (S754_finite false m e) (S754_finite false h eh) = true
  <-> e < eh \/ (e = eh /\ Zpos m < Zpos h).
Proof.
  unfold ltb, SFltb, SFcompare.
  change (PosDef.Pos.compare_cont Eq) with Pos.compare.
  destruct (Z.compare_spec e eh) as [->|Hlt|Hgt].
  - destruct (Pos.compare_spec m h) as [->|Hl|Hg]; split;
      try discriminate; try lia; intros _; try reflexivity; right; lia.
  - split; [intros _; left; exact Hlt|reflexivity].
  - split; [discriminate|lia].
Qed.

Lemma valid_finite_shape s m e :
  valid_binary prec emax (S754_finite s m e) = true ->
  -1074 <= e
  /\ (Zpos (digits2_pos m) = 53
      \/ (e = -1074 /\ Zpos (digits2_pos m) <= 53)).
Proof.
  unfold valid_binary, bounded, canonical_mantissa, fexp, emin, prec, emax.
  intros H. apply andb_true_iff in H as [H _]. apply Z.eqb_eq in H. lia.
Qed.

(** Adding a positive whole number of seconds to a clock reading between
    0 and 2^53 gives a later one: below 2^53 consecutive doubles are at
    most one apart. *)
Lemma add_seconds_later (now : double) (z : Z) :
  valid_binary prec emax now = true ->
  leb (S754_zero false) now = true ->
  ltb now (of_Z (2 ^ 53)) = true ->
  0 < z <= Int.max_signed ->
  ltb now (add now (of_Z z)) = true.
Proof.
  intros Hvalid Hnn Hlt Hz.
  destruct z as [|p|p]; try lia.
  assert (Hp31 : Zpos p < 2 ^ 31) by (unfold Int.max_signed in Hz; lia).
  assert (Hp : Zpos p < 2 ^ 53).
  { change (2 ^ 31) with 2147483648 in Hp31.
    change (2 ^ 53) with 9007199254740992. lia. }
  destruct (binary_round_small false p (digits2_pos_small p Hp))
    as (ms & es & Hof & Hds & Hes & Hms).
  assert (Hofz : of_Z (Zpos p) = S754_finite false ms es) by exact Hof.
  pose proof (digits2_pos_le p 31 Hp31) as Hpd.
  assert (1 <= Zpos (digits2_pos p)) by lia.
  rewrite Hofz.
  assert (H53 : of_Z (2 ^ 53) = S754_finite false 4503599627370496 1)
    by (vm_compute; reflexivity).
  rewrite H53 in Hlt. clear H53.
  destruct now as [s0|s0| |s0 m e].
  - reflexivity.
  - destruct s0; discriminate.
  - discriminate.
  - destruct s0; [discriminate|].
    destruct (valid_finite_shape _ _ _ Hvalid) as [Hemin Hshape].
    apply ltb_finite_iff in Hlt.
    pose proof (digits2_pos_bounds m) as [Hmlo _].
    pose proof (digits2_pos_bounds ms) as [Hmslo _]. rewrite Hds in Hmslo.
    change (2 ^ (53 - 1)) with 4503599627370496 in Hmslo.
    assert (He : e <= 0).
    { destruct Hlt as [?|[-> Hm]]; [lia|]. exfalso.
      destruct Hshape as [Hd|[? _]]; [|lia].
      rewrite Hd in Hmlo. change (2 ^ (53 - 1)) with 4503599627370496 in Hmlo.
      lia. }
    clear Hlt Hnn Hvalid.
    unfold add, SFadd. cbn [cond_Zopp].
    set (ez := Z.min e es).
    assert (Hez1 : ez <= e) by (subst ez; lia).
    assert (Hez2 : ez <= es) by (subst ez; lia).
    assert (Hez : -1074 <= ez) by (subst ez; lia).
    pose proof (shl_align_value m e ez Hez1) as HX.
    pose proof (shl_align_value ms es ez Hez2) as HS.
    set (X := fst (shl_align m e ez)) in *.
    set (S := fst (shl_align ms es ez)) in *.
    rewrite <- Pos2Z.inj_add. cbn [binary_normalize].
    set (M := (X + S)%positive).
    assert (HM : Zpos M = Zpos m * 2 ^ (e - ez) + Zpos ms * 2 ^ (es - ez))
      by (subst M; rewrite Pos2Z.inj_add, HX, HS; reflexivity).
    assert (Pa : 0 < 2 ^ (e - ez)) by (apply Z.pow_pos_nonneg; lia).
    assert (Pc : 0 < 2 ^ (es - ez)) by (apply Z.pow_pos_nonneg; lia).
    assert (HM52 : 2 ^ 52 <= Zpos M).
    { change (2 ^ 52) with 4503599627370496. nia. }
    assert (Hd : 53 <= Zpos (digits2_pos M))
      by (apply digits2_pos_ge; exact HM52).
    assert (Hda : 53 + (e - ez) <= Zpos (digits2_pos M)).
    { destruct Hshape as [Hdm|[Hsub _]].
      - apply digits2_pos_ge.
        replace (53 + (e - ez) - 1) with (52 + (e - ez)) by lia.
        rewrite Z.pow_add_r by lia.
        rewrite Hdm in Hmlo. change (2 ^ (53 - 1)) with (2 ^ 52) in Hmlo.
        assert (0 < 2 ^ 52) by reflexivity. nia.
      - replace (e - ez) with 0 by (subst ez; lia). lia. }
    unfold binary_round.
    rewrite shl_align_id
      by (unfold fexp, emin, prec, emax; lia).
    pose proof (binary_round_aux_lower M ez Hd Hez) as HR. cbv zeta in HR.
    destruct HR as [Hinf|(m'' & e'' & Hr & Hcase)].
    + rewrite Hinf. reflexivity.
    + rewrite Hr. apply ltb_finite_iff.
      destruct Hcase as [[He'' Hm'']|He'']; [|left; lia].
      destruct (Z_lt_le_dec e e'') as [|Hge]; [left; assumption|right].
      assert (Hk : Zpos (digits2_pos M) - 53 = e - ez) by lia.
      split; [lia|]. rewrite Hk in Hm''.
      assert (Zpos m + 1 <= Zpos M / 2 ^ (e - ez)); [|lia].
      apply Z.div_le_lower_bound; [exact Pa|].
      rewrite HM, Hms.
      assert (Hpow : 2 ^ (- es) * 2 ^ (es - ez) = 2 ^ (- ez)).
      { rewrite <- Z.pow_add_r by lia. f_equal. lia. }
      assert (Hle : 2 ^ (e - ez) <= 2 ^ (- ez))
        by (apply Z.pow_le_mono_r; lia).
      rewrite <- Z.mul_assoc, Hpow.
      assert (0 < 2 ^ (- ez)) by (apply Z.pow_pos_nonneg; lia).
      nia.
Qed.

(** ** Rejection of an estimate *)

Lemma populate_rejected indefinite g b :
  estimateInvalid g b = true ->
  populateTimeRemaining_body indefinite g b = set_swCalculatedTR (-1) b.
Proof. intros H. unfold populateTimeRemaining_body. rewrite H. reflexivity. Qed.

(** The rejection test in the double operations it is written with. *)
Lemma populateTimeRemaining_rejects_double
  (indefinite : Z) (g : Globals) (batts : list IOPMBattery)
  (i : nat) (b : IOPMBattery) :
  batts !! i = Some b ->
  let absValAvgCurrent := of_Z (Int.abs (avgAmperage b)) in
  let absValInstantCurrent := of_Z (Int.abs (instantAmperage b)) in
  let lower := if _batteryHas b kInstantAmperageKey
               then mul absValInstantCurrent half else of_Z 5 in
  let upper := if _batteryHas b kInstantAmperageKey
               then mul absValInstantCurrent two else of_Z 15000 in
  avgAmperage b = 0
  \/ ltb absValAvgCurrent lower = true
  \/ ltb upper absValAvgCurrent = true
  \/ _ignoringTimeRemainingEstimates g = true ->
  swCalculatedTR <$> snd (_populateTimeRemaining indefinite g batts) !! i
  = Some (-1).
Proof.
  intros Hb avg inst lower upper Hcond.
  rewrite populate_lookup, Hb. simpl. f_equal.
  rewrite populate_rejected; [reflexivity|].
  rewrite estimateInvalid_unfold. unfold amperageBounds.
  fold inst. fold avg.
  destruct (_batteryHas b kInstantAmperageKey); cbn [fst snd];
    subst lower upper; cbv beta iota in Hcond;
    destruct Hcond as [H0|[Hlo|[Hhi|Hig]]];
    rewrite ?H0, ?Hlo, ?Hhi, ?Hig, ?orb_true_r; reflexivity.
Qed.

Lemma abs_small z :
  Int.in_range z -> z <> Int.min_signed ->
  Int.abs z = Z.abs z /\ 0 <= Z.abs z < 2 ^ 53.
Proof.
  intros Hr Hne. destruct (abs_in_range z Hr) as [[Hmin _]|[_ Ha]];
    [contradiction|].
  split; [exact Ha|].
  unfold Int.in_range, Int.min_signed, Int.max_signed in Hr. lia.
Qed.

(** The rejection test on integers. The absolute values are the true
    ones as long as [abs] is not given the most negative [int]. *)
Lemma estimateInvalid_exact g b :
  Int.in_range (avgAmperage b) -> avgAmperage b <> Int.min_signed ->
  Int.in_range (instantAmperage b) ->
  (_batteryHas b kInstantAmperageKey = true ->
   instantAmperage b <> Int.min_signed) ->
  let avg := Z.abs (avgAmperage b) in
  let inst := Z.abs (instantAmperage b) in
  estimateInvalid g b
  = (avgAmperage b =? 0)
    || (if _batteryHas b kInstantAmperageKey
        then (2 * avg <? inst) || (2 * inst <? avg)
        else (avg <? 5) || (15000 <? avg))
    || _ignoringTimeRemainingEstimates g.
Proof.
  intros Hra Hna Hri Hni avg inst.
  destruct (abs_small _ Hra Hna) as [Ea Ba]. fold avg in Ea, Ba.
  rewrite estimateInvalid_unfold. unfold amperageBounds. rewrite Ea.
  rewrite (Z.eqb_sym 0 (avgAmperage b)), <- !orb_assoc. f_equal.
  rewrite !orb_assoc. f_equal.
  destruct (_batteryHas b kInstantAmperageKey); cbn [fst snd].
  - destruct (abs_small _ Hri (Hni eq_refl)) as [Ei Bi]. fold inst in Ei, Bi.
    rewrite Ei, ltb_half_of_Z, ltb_two_of_Z by assumption. reflexivity.
  - rewrite !ltb_of_Z by (try assumption; lia). reflexivity.
Qed.

(** What [abs] makes of the most negative [int] is always rejected. *)
Lemma estimateInvalid_min_signed g b :
  Int.in_range (avgAmperage b) -> Int.in_range (instantAmperage b) ->
  avgAmperage b = Int.min_signed
  \/ (_batteryHas b kInstantAmperageKey = true
      /\ instantAmperage b = Int.min_signed) ->
  estimateInvalid g b = true.
Proof.
  intros Hra Hri Hmin.
  rewrite estimateInvalid_unfold. unfold amperageBounds.
  destruct (Z.eq_dec (avgAmperage b) Int.min_signed) as [Ha|Hna].
  - (* the average current is below every lower bound *)
    rewrite Ha.
    assert (Hlow : forall x, canonical_nn x ->
                     ltb (of_Z (Int.abs Int.min_signed)) x = true).
    { intros [[|]|[|]| |[|] m e]; simpl; try contradiction; reflexivity. }
    destruct (_batteryHas b kInstantAmperageKey); cbn [fst snd].
    + destruct (Z.eq_dec (instantAmperage b) Int.min_signed) as [Hi|Hni].
      * rewrite Hi. vm_compute. reflexivity.
      * destruct (abs_small _ Hri Hni) as [Ei Bi]. rewrite Ei.
        destruct (of_Z_scaled _ (-1) Bi) as (_ & _ & C & _); [lia|].
        change (S754_finite false 4503599627370496 (-1 - 52)) with half in C.
        rewrite (Hlow _ C), orb_true_r. reflexivity.
    + vm_compute. reflexivity.
  - (* the upper bound is negative *)
    destruct Hmin as [Ha|[Hhas Hi]]; [contradiction|].
    rewrite Hhas, Hi. cbn [fst snd].
    destruct (abs_small _ Hra Hna) as [Ea Ba]. rewrite Ea.
    destruct (of_Z_scaled _ 0 Ba) as (C & _); [lia|].
    assert (Hup : forall x, canonical_nn x ->
                    ltb (mul (of_Z (Int.abs Int.min_signed)) two) x = true).
    { intros [[|]|[|]| |[|] m e]; simpl; try contradiction; reflexivity. }
    rewrite (Hup _ C), orb_true_r. reflexivity.
Qed.

(** C1. In a cycle of [_populateTimeRemaining], the battery at any index
    gets [swCalculatedTR = -1] as soon as one of these holds: its average
    current is zero; the absolute value of its average current is below
    0.5 times or above 2.0 times the absolute value of its instantaneous
    current, when the battery reports InstantAmperage, or below 5 or above
    15000 when it does not; or [_ignoringTimeRemainingEstimates] is set.
    The first alternative alone suffices, whatever the other fields are.
    (The currents are [int]s; the halving and doubling are exact in
    doubles, so the bounds are stated on the integers.) *)
Theorem populateTimeRemaining_rejects
  (indefinite : Z) (g : Globals) (batts : list IOPMBattery)
  (i : nat) (b : IOPMBattery) :
  batts !! i = Some b ->
  Int.in_range (avgAmperage b) ->
  Int.in_range (instantAmperage b) ->
  let avg := Z.abs (avgAmperage b) in
  let inst := Z.abs (instantAmperage b) in
  avgAmperage b = 0
  \/ (if _batteryHas b kInstantAmperageKey
      then 2 * avg < inst \/ 2 * inst < avg
      else avg < 5 \/ 15000 < avg)
  \/ _ignoringTimeRemainingEstimates g = true ->
  swCalculatedTR <$> snd (_populateTimeRemaining indefinite g batts) !! i
  = Some (-1).
Proof.
  intros Hb Hra Hri avg inst Hcond.
  rewrite populate_lookup, Hb. simpl. f_equal.
  rewrite populate_rejected; [reflexivity|].
  destruct (Z.eq_dec (avgAmperage b) Int.min_signed) as [Ha|Hna];
    [apply estimateInvalid_min_signed; auto|].
  destruct (_batteryHas b kInstantAmperageKey) eqn:Hhas.
  - destruct (Z.eq_dec (instantAmperage b) Int.min_signed) as [Hi|Hni];
      [apply estimateInvalid_min_signed; auto|].
    rewrite estimateInvalid_exact, Hhas by auto. fold avg inst.
    destruct Hcond as [H0|[[Hlo|Hhi]|Hig]].
    + rewrite H0. reflexivity.
    + apply Z.ltb_lt in Hlo. rewrite Hlo, !orb_true_r. reflexivity.
    + apply Z.ltb_lt in Hhi. rewrite Hhi, !orb_true_r. reflexivity.
    + rewrite Hig, !orb_true_r. reflexivity.
  - rewrite estimateInvalid_exact, Hhas by (auto; intros; congruence). fold avg.
    destruct Hcond as [H0|[[Hlo|Hhi]|Hig]].
    + rewrite H0. reflexivity.
    + apply Z.ltb_lt in Hlo. rewrite Hlo, !orb_true_r. reflexivity.
    + apply Z.ltb_lt in Hhi. rewrite Hhi, !orb_true_r. reflexivity.
    + rewrite Hig, !orb_true_r. reflexivity.
Qed.

Lemma populateTimeRemaining_rejects_witness :
  swCalculatedTR <$>
    snd (_populateTimeRemaining 0 globals_init
           [with_avgAmperage 0 sample_discharging]) !! 0%nat
  = Some (-1).
Proof.
  apply (populateTimeRemaining_rejects 0 globals_init
           [with_avgAmperage 0 sample_discharging] 0
           (with_avgAmperage 0 sample_discharging)).
  - reflexivity.
  - unfold Int.in_range, Int.min_signed, Int.max_signed. simpl. lia.
  - unfold Int.in_range, Int.min_signed, Int.max_signed. simpl. lia.
  - left. reflexivity.
Defined.

(** ** The computed estimate *)

(** The estimate as the code computes it. A battery that passes the
    rejection checks gets, when the firmware estimate is not trusted, the minutes
    [60 * ((maxCap - currentCap) / avgAmperage)] if it is charging and
    [-60 * (currentCap / avgAmperage)] if not, computed in doubles and
    converted to [int] by the store into [swCalculatedTR], which drops the
    fraction; when the firmware estimate is trusted it gets [hwAverageTR].
    On either path a stored value below zero is then replaced by -1 and
    one above 600 by 600, so that the final [swCalculatedTR] is -1 or lies
    between 0 and 600. *)
Lemma populateTimeRemaining_estimate
  (indefinite : Z) (g : Globals) (batts : list IOPMBattery)
  (i : nat) (b : IOPMBattery) :
  batts !! i = Some b ->
  estimateInvalid g b = false ->
  let minutes :=
    if _useBatteryTimeEstimate g then hwAverageTR b
    else to_int indefinite
           (if isCharging b
            then mul (of_Z 60)
                     (div (of_Z (Int.sub (maxCap b) (currentCap b)))
                          (of_Z (avgAmperage b)))
            else mul (of_Z (-60))
                     (div (of_Z (currentCap b)) (of_Z (avgAmperage b)))) in
  exists b',
    snd (_populateTimeRemaining indefinite g batts) !! i = Some b'
    /\ swCalculatedTR b'
       = (if minutes <? 0 then -1
          else if 600 <? minutes then 600 else minutes)
    /\ (swCalculatedTR b' = -1 \/ 0 <= swCalculatedTR b' <= 600).
Proof.
  intros Hb Hvalid minutes.
  exists (populateTimeRemaining_body indefinite g b).
  split; [rewrite populate_lookup, Hb; reflexivity|].
  unfold populateTimeRemaining_body. rewrite Hvalid.
  split; [|apply capTimeRemaining_range].
  rewrite capTimeRemaining_spec. subst minutes. unfold manualMinutes.
  destruct (_useBatteryTimeEstimate g); rewrite swCalculatedTR_set;
    reflexivity.
Qed.

Lemma populateTimeRemaining_estimate_witness :
  exists b',
    snd (_populateTimeRemaining 0 globals_init [sample_discharging]) !! 0%nat
    = Some b'
    /\ swCalculatedTR b' = 245
    /\ (swCalculatedTR b' = -1 \/ 0 <= swCalculatedTR b' <= 600).
Proof.
  apply (populateTimeRemaining_estimate 0 globals_init
           [sample_discharging] 0 sample_discharging).
  - reflexivity.
  - vm_compute. reflexivity.
Defined.

(** The minutes are what the store into the [int] makes of the double.
    On the sample battery [-60 * (4100.0 / -1000.0)] falls just short of
    246 and is stored as 245. *)
Remark estimate_is_truncated_double :
  swCalculatedTR (populateTimeRemaining_body 0 globals_init sample_discharging)
  = 245
  /\ (-60 * 4100) / (-1000) = 246.
Proof. vm_compute. split; reflexivity. Qed.

(** C2, at an input where the code departs from it. The sample battery
    passes the rejection checks, the firmware estimate is not trusted, the
    battery is charging, and [60 * ((maxCap - currentCap) / avgAmperage)]
    is negative, about -0.3. A negative result is to become -1, by the
    claim and by the comment on the test in the source; but the double is
    stored in the [int] [swCalculatedTR] before it is tested, which makes
    it 0, and [swCalculatedTR < 0] lets 0 through: the estimate is 0
    minutes, whatever the processor makes of doubles that do not fit an
    [int]. *)
Theorem negative_estimate_stored_as_zero :
  estimateInvalid globals_init sample_charging_stale = false
  /\ _useBatteryTimeEstimate globals_init = false
  /\ isCharging sample_charging_stale = true
  /\ ltb (mul (of_Z 60)
              (div (of_Z (Int.sub (maxCap sample_charging_stale)
                                  (currentCap sample_charging_stale)))
                   (of_Z (avgAmperage sample_charging_stale))))
         (of_Z 0) = true
  /\ forall indefinite,
       swCalculatedTR <$>
         snd (_populateTimeRemaining indefinite globals_init
                [sample_charging_stale]) !! 0%nat
       = Some 0.
Proof.
  split; [vm_compute; reflexivity|]. split; [reflexivity|].
  split; [reflexivity|]. split; [vm_compute; reflexivity|].
  intros indefinite. vm_compute. reflexivity.
Qed.

(** ** A battery whose instantaneous current reads zero *)

Lemma zero_bounds b :
  _batteryHas b kInstantAmperageKey = true ->
  instantAmperage b = 0 ->
  amperageBounds b = (S754_zero false, S754_zero false).
Proof.
  intros Hhas Hinst. unfold amperageBounds. rewrite Hhas, Hinst.
  vm_compute. reflexivity.
Qed.

Lemma abs_nonzero_outside_zero z :
  Int.in_range z -> z <> 0 ->
  (z <> Int.min_signed /\ ltb (S754_zero false) (of_Z (Int.abs z)) = true)
  \/ (z = Int.min_signed /\ ltb (of_Z (Int.abs z)) (S754_zero false) = true).
Proof.
  intros Hr Hz. destruct (abs_in_range z Hr) as [[-> Ha]|[Hne Ha]].
  - right. split; [reflexivity|]. vm_compute. reflexivity.
  - left. split; [assumption|]. rewrite Ha.
    destruct (of_Z_positive (Z.abs z)) as (m & e & ->).
    + unfold Int.in_range, Int.min_signed, Int.max_signed in Hr. lia.
    + reflexivity.
Qed.

(** C9. A battery that reports InstantAmperage and whose instantaneous
    current is zero gets -1 whatever its average current is: both bounds
    are zero; an average current of zero is caught by the test for zero,
    and the absolute value of any other average current is above the
    upper bound. (For the one value [abs] cannot negate, the most negative
    [int], what [abs] returns is below the lower bound instead.) *)
Theorem zero_instant_current_rejects
  (indefinite : Z) (g : Globals) (batts : list IOPMBattery)
  (i : nat) (b : IOPMBattery) :
  batts !! i = Some b ->
  _batteryHas b kInstantAmperageKey = true ->
  instantAmperage b = 0 ->
  Int.in_range (avgAmperage b) ->
  amperageBounds b = (S754_zero false, S754_zero false)
  /\ (avgAmperage b <> 0 -> avgAmperage b <> Int.min_signed ->
      ltb (snd (amperageBounds b)) (of_Z (Int.abs (avgAmperage b))) = true)
  /\ swCalculatedTR <$> snd (_populateTimeRemaining indefinite g batts) !! i
     = Some (-1).
Proof.
  intros Hb Hhas Hinst Hr.
  pose proof (zero_bounds b Hhas Hinst) as Hbounds.
  split; [exact Hbounds|]. split.
  - intros Hz Hmin. rewrite Hbounds. cbn [snd].
    destruct (abs_nonzero_outside_zero _ Hr Hz) as [[_ H]|[H _]];
      [exact H|contradiction].
  - rewrite populate_lookup, Hb. simpl. f_equal.
    rewrite populate_rejected; [reflexivity|].
    rewrite estimateInvalid_unfold, Hbounds. cbn [fst snd].
    destruct (Z.eq_dec (avgAmperage b) 0) as [H0|Hz].
    + rewrite H0. reflexivity.
    + destruct (abs_nonzero_outside_zero _ Hr Hz) as [[_ H]|[_ H]];
        rewrite H, ?orb_true_r; reflexivity.
Qed.

Lemma zero_instant_current_rejects_witness :
  swCalculatedTR <$>
    snd (_populateTimeRemaining 0 globals_init [sample_zero_instant]) !! 0%nat
  = Some (-1).
Proof.
  apply (zero_instant_current_rejects 0 globals_init
           [sample_zero_instant] 0 sample_zero_instant eq_refl).
  - vm_compute. reflexivity.
  - reflexivity.
  - unfold Int.in_range, Int.min_signed, Int.max_signed. simpl. lia.
Defined.

(** ** Health *)

(** The keys of the health entries are two different keys. *)
Lemma health_keys_differ : kIOPSBatteryHealthKey <> kIOPSHealthConfidenceKey.
Proof. discriminate. Qed.

(** A double strictly above another is not at or below it. *)
Lemma ltb_not_leb (x y : double) : ltb x y = true -> leb y x = false.
Proof.
  unfold ltb, leb, SFltb, SFleb.
  destruct x as [sx|sx| |sx mx ex], y as [sy|sy| |sy my ey]; simpl;
    try discriminate; try (destruct sx; discriminate);
    try (destruct sy; discriminate);
    try (destruct sx, sy; discriminate || reflexivity).
  destruct sx, sy; try discriminate; try reflexivity;
    rewrite (Z.compare_antisym ex ey);
    destruct (ex ?= ey) eqn:He; simpl; try discriminate; try reflexivity;
    change (Pos.compare_cont Eq) with Pos.compare;
    rewrite (Pos.compare_antisym mx my);
    destruct (mx ?= my)%positive; simpl;
    try discriminate; reflexivity.
Qed.

Lemma classifier_normal_path (outDict : CFDictionary) b :
  isPresent b = true ->
  permanentFailure b = false ->
  _batteryHas b kIOPMPSMaxCapacityKey = true ->
  _batteryHas b kIOPMPSDesignCapacityKey = true ->
  let fair :=
    leb (healthRatio b) (if markedNeedsReplacement b then d0_83 else d0_80)
    && (cycleCount b <? 300) in
  fst (_setBatteryHealthConfidence outDict b)
  = <[kIOPSHealthConfidenceKey := CFString kIOPSGoodValue]>
      (<[kIOPSBatteryHealthKey :=
           CFString (if fair then kIOPSFairValue else kIOPSGoodValue)]> outDict)
  /\ markedNeedsReplacement (snd (_setBatteryHealthConfidence outDict b)) = fair.
Proof.
  intros Hp Hf Hmax Hdes fair. subst fair.
  unfold _setBatteryHealthConfidence. rewrite Hp, Hf, Hmax, Hdes. simpl.
  destruct (markedNeedsReplacement b) eqn:Hm;
    destruct (leb (healthRatio b) _ && (cycleCount b <? 300)) eqn:Hc;
    simpl; rewrite ?Hm; split; reflexivity.
Qed.

(** C3, as the classifier has it. Take a battery that is present, has no
    permanent failure and reports DesignCapacity, with
    [ratio = (maxCap + 200.0) / designCap]. If it reports MaxCapacity as
    well: when not latched it reports Fair and latches if [ratio <= 0.80]
    and [cycleCount < 300], and reports Good and stays unlatched
    otherwise; when latched it reports Fair and stays latched if
    [ratio <= 0.83] and [cycleCount < 300], and reports Good and unlatches
    otherwise; so a ratio above 0.80 and at most 0.83, with fewer than 300
    cycles, gives Fair when latched and Good when not; the confidence is
    Good throughout. If it does not report MaxCapacity, the classifier
    leaves the dictionary and the battery, its latch included, as they
    are. *)
Theorem health_hysteresis (outDict : CFDictionary) (b : IOPMBattery) :
  isPresent b = true ->
  permanentFailure b = false ->
  _batteryHas b kIOPMPSDesignCapacityKey = true ->
  let ratio := div (add (of_Z (maxCap b)) (of_Z 200)) (of_Z (designCap b)) in
  let r := _setBatteryHealthConfidence outDict b in
  let health := fst r !! kIOPSBatteryHealthKey in
  let latch := markedNeedsReplacement (snd r) in
  (_batteryHas b kIOPMPSMaxCapacityKey = true ->
     (markedNeedsReplacement b = false ->
        if leb ratio d0_80 && (cycleCount b <? 300)
        then health = Some (CFString kIOPSFairValue) /\ latch = true
        else health = Some (CFString kIOPSGoodValue) /\ latch = false)
     /\ (markedNeedsReplacement b = true ->
        if leb ratio d0_83 && (cycleCount b <? 300)
        then health = Some (CFString kIOPSFairValue) /\ latch = true
        else health = Some (CFString kIOPSGoodValue) /\ latch = false)
     /\ (ltb d0_80 ratio = true -> leb ratio d0_83 = true ->
         cycleCount b < 300 ->
         if markedNeedsReplacement b
         then health = Some (CFString kIOPSFairValue) /\ latch = true
         else health = Some (CFString kIOPSGoodValue) /\ latch = false)
     /\ fst r !! kIOPSHealthConfidenceKey = Some (CFString kIOPSGoodValue))
  /\ (_batteryHas b kIOPMPSMaxCapacityKey = false -> r = (outDict, b)).
Proof.
  intros Hp Hf Hdes ratio r health latch. split.
  - intros Hmax.
    destruct (classifier_normal_path outDict b Hp Hf Hmax Hdes) as [Hd Hl].
    fold r in Hd, Hl. fold latch in Hl.
    change (healthRatio b) with ratio in Hd, Hl.
    assert (Hh : health
                 = Some (CFString
                     (if leb ratio (if markedNeedsReplacement b
                                    then d0_83 else d0_80)
                         && (cycleCount b <? 300)
                      then kIOPSFairValue else kIOPSGoodValue))).
    { subst health. rewrite Hd.
      rewrite lookup_insert_ne by (apply not_eq_sym, health_keys_differ).
      apply lookup_insert_eq. }
    repeat split.
    + intros Hm. rewrite Hm in Hh, Hl. rewrite Hh, Hl.
      destruct (leb ratio d0_80 && (cycleCount b <? 300)); split; reflexivity.
    + intros Hm. rewrite Hm in Hh, Hl. rewrite Hh, Hl.
      destruct (leb ratio d0_83 && (cycleCount b <? 300)); split; reflexivity.
    + intros Hlo Hhi Hc. rewrite Hh, Hl.
      apply ltb_not_leb in Hlo.
      assert (Hcb : (cycleCount b <? 300) = true) by (apply Z.ltb_lt; exact Hc).
      destruct (markedNeedsReplacement b);
        rewrite ?Hlo, ?Hhi, ?Hcb; split; reflexivity.
    + rewrite Hd. apply lookup_insert_eq.
  - intros Hmax. subst r. unfold _setBatteryHealthConfidence.
    rewrite Hp, Hf, Hmax. reflexivity.
Qed.

(** The latched sample battery keeps Fair at a ratio between the
    thresholds. *)
Lemma health_hysteresis_witness :
  fst (_setBatteryHealthConfidence ∅ (sample_worn true))
    !! kIOPSBatteryHealthKey = Some (CFString kIOPSFairValue)
  /\ markedNeedsReplacement
       (snd (_setBatteryHealthConfidence ∅ (sample_worn true))) = true.
Proof.
  destruct (health_hysteresis ∅ (sample_worn true)) as [Hmax _].
  - reflexivity.
  - vm_compute. reflexivity.
  - vm_compute. reflexivity.
  - destruct Hmax as (_ & _ & H & _).
    + vm_compute. reflexivity.
    + apply H.
      * vm_compute. reflexivity.
      * vm_compute. reflexivity.
      * simpl. lia.
Defined.

(** C3 as stated does not hold: the sample battery is in its slot, its
    design capacity is known, there is no permanent failure, the latch is
    open, the ratio is below 0.80 and the cycle count below 300; and yet
    no health is reported and the latch stays open, because the entry has
    no MaxCapacity key. *)
Lemma health_hysteresis_counterexample :
  isPresent sample_no_max_capacity = true
  /\ _batteryHas sample_no_max_capacity kIOPMPSDesignCapacityKey = true
  /\ permanentFailure sample_no_max_capacity = false
  /\ markedNeedsReplacement sample_no_max_capacity = false
  /\ leb (healthRatio sample_no_max_capacity) d0_80
     && (cycleCount sample_no_max_capacity <? 300) = true
  /\ fst (_setBatteryHealthConfidence ∅ sample_no_max_capacity)
       !! kIOPSBatteryHealthKey = None
  /\ markedNeedsReplacement
       (snd (_setBatteryHealthConfidence ∅ sample_no_max_capacity)) = false.
Proof. vm_compute. repeat split; reflexivity. Qed.

(** C7. For a battery whose registry entry has the ErrorCondition key
    with the failure string "Permanent Battery Failure", the classifier
    leaves the battery, its latch included, as it was, whatever the ratio
    and the cycle count are. If the battery is present, which is the case
    this rule of the classifier is written for, the health is set to Poor
    and the confidence to Good and the dictionary gets these two entries
    only. If it is absent, the test before this one has returned and the
    dictionary is as it was. *)
Theorem permanent_failure_poor (outDict : CFDictionary) (b : IOPMBattery) :
  _batteryHas b kIOPMPSErrorConditionKey = true ->
  failureDetected b = Some kBatteryPermFailureString ->
  let r := _setBatteryHealthConfidence outDict b in
  snd r = b
  /\ markedNeedsReplacement (snd r) = markedNeedsReplacement b
  /\ (isPresent b = true ->
      fst r !! kIOPSBatteryHealthKey = Some (CFString kIOPSPoorValue)
      /\ fst r !! kIOPSHealthConfidenceKey = Some (CFString kIOPSGoodValue)
      /\ fst r = <[kIOPSHealthConfidenceKey := CFString kIOPSGoodValue]>
                  (<[kIOPSBatteryHealthKey := CFString kIOPSPoorValue]>
                     outDict))
  /\ (isPresent b = false -> fst r = outDict).
Proof.
  intros Hkey Hfail r. subst r.
  unfold _setBatteryHealthConfidence, permanentFailure.
  rewrite Hkey, Hfail.
  destruct (isPresent b); simpl.
  - split; [reflexivity|]. split; [reflexivity|]. split; [|discriminate].
    intros _. split; [|split; [|reflexivity]].
    + rewrite lookup_insert_ne by (apply not_eq_sym, health_keys_differ).
      apply lookup_insert_eq.
    + apply lookup_insert_eq.
  - split; [reflexivity|]. split; [reflexivity|].
    split; [discriminate|reflexivity].
Qed.

(** The failed sample battery, latched and at a ratio between the
    thresholds, is reported Poor and stays latched. *)
Lemma permanent_failure_poor_witness :
  fst (_setBatteryHealthConfidence ∅ sample_failed) !! kIOPSBatteryHealthKey
  = Some (CFString kIOPSPoorValue)
  /\ markedNeedsReplacement (snd (_setBatteryHealthConfidence ∅ sample_failed))
     = true.
Proof.
  destruct (permanent_failure_poor ∅ sample_failed) as (_ & Hl & H & _).
  - vm_compute. reflexivity.
  - reflexivity.
  - split; [apply H; reflexivity | exact Hl].
Defined.

(** ** Capacity percentages *)

Lemma setTimes_lookup b (d : CFDictionary) k :
  k <> kIOPSIsChargingKey -> k <> kIOPSTimeToFullChargeKey ->
  k <> kIOPSTimeToEmptyKey ->
  setTimes b d !! k = d !! k.
Proof.
  intros H1 H2 H3. unfold setTimes.
  destruct (negb (isPresent b)); [|destruct (-1 =? swCalculatedTR b);
    [|destruct (isCharging b); [|destruct (externalConnected b)]]];
    rewrite !lookup_insert_ne by (apply not_eq_sym; assumption);
    reflexivity.
Qed.

Lemma classifier_lookup (d : CFDictionary) b k :
  k <> kIOPSBatteryHealthKey -> k <> kIOPSHealthConfidenceKey ->
  fst (_setBatteryHealthConfidence d b) !! k = d !! k.
Proof.
  intros H1 H2. unfold _setBatteryHealthConfidence.
  destruct (negb (isPresent b)); [reflexivity|].
  destruct (permanentFailure b).
  { simpl. rewrite !lookup_insert_ne by (apply not_eq_sym; assumption).
    reflexivity. }
  destruct (_batteryHas b kIOPMPSMaxCapacityKey
            && _batteryHas b kIOPMPSDesignCapacityKey); [|reflexivity].
  destruct (markedNeedsReplacement b);
    [destruct (leb (healthRatio b) d0_83 && (cycleCount b <? 300))
    |destruct (leb (healthRatio b) d0_80 && (cycleCount b <? 300))];
    simpl; rewrite !lookup_insert_ne by (apply not_eq_sym; assumption);
    reflexivity.
Qed.

(** The two capacity entries of a packaged battery. *)
Lemma package_capacity_lookup g b :
  fst (packageBatteryInfo_body g b) !! kIOPSMaxCapacityKey
  = Some (CFNumber (fst (capacityPercent b)))
  /\ fst (packageBatteryInfo_body g b) !! kIOPSCurrentCapacityKey
     = Some (CFNumber (snd (capacityPercent b))).
Proof.
  unfold packageBatteryInfo_body.
  destruct (capacityPercent b) as [set_capacity set_charge]. cbn [fst snd].
  match goal with
  | |- context [_setBatteryHealthConfidence ?d b] =>
      pose proof (classifier_lookup d b kIOPSMaxCapacityKey) as Hmax;
      pose proof (classifier_lookup d b kIOPSCurrentCapacityKey) as Hcur;
      destruct (_setBatteryHealthConfidence d b) as [d' b']
  end.
  cbn [fst snd] in *.
  split.
  - rewrite lookup_insert_ne by discriminate.
    rewrite Hmax by discriminate.
    rewrite setTimes_lookup by discriminate.
    rewrite !lookup_insert_ne by discriminate.
    apply lookup_insert_eq.
  - rewrite lookup_insert_ne by discriminate.
    rewrite Hcur by discriminate.
    rewrite setTimes_lookup by discriminate.
    rewrite !lookup_insert_ne by discriminate.
    apply lookup_insert_eq.
Qed.



(** ** Publication *)

Section PublisherFacts.

Implicit Types (batteries : list IOPMBattery).
Implicit Types (result old : list (option CFDictionary)).

Lemma expected_retained_length result old :
  length result = length old ->
  length (expected_retained result old) = length old.
Proof.
  revert old. induction result as [|r result IH]; intros [|o old] Hlen;
    simpl in *; try discriminate; [reflexivity|].
  f_equal. apply IH. lia.
Qed.

Lemma expected_retained_snoc result old r o :
  length result = length old ->
  expected_retained (result ++ [r]) (old ++ [o])
  = expected_retained result old
    ++ [match r with Some x => Some x | None => o end].
Proof.
  revert old. induction result as [|r' result IH]; intros [|o' old] Hlen;
    simpl in *; try discriminate; [reflexivity|].
  f_equal. apply IH. lia.
Qed.

Lemma expected_calls_snoc batteries result old b r o :
  length result = length batteries -> length old = length batteries ->
  expected_calls (batteries ++ [b]) (result ++ [r]) (old ++ [o])
  = expected_calls batteries result old
    ++ match r with
       | Some x => if differs o x then [(dynamicStoreKey b, x)] else []
       | None => []
       end.
Proof.
  revert result old.
  induction batteries as [|b' batteries IH]; intros [|r' result] [|o' old] H1 H2;
    simpl in *; try discriminate.
  - rewrite app_nil_r. reflexivity.
  - rewrite IH by lia. rewrite app_assoc. reflexivity.
Qed.

(** The state of the loop after the first [k] indices. *)
Lemma publish_prefix batteries result old k :
  length result = length batteries -> length old = length batteries ->
  (k <= length batteries)%nat ->
  foldl (publish_body batteries result) (old, []) (seq 0 k)
  = (expected_retained (take k result) (take k old) ++ drop k old,
     expected_calls (take k batteries) (take k result) (take k old)).
Proof.
  intros Hr Ho. induction k as [|k IH]; intros Hk.
  - simpl. rewrite drop_0. reflexivity.
  - rewrite seq_S, foldl_app, IH by lia. simpl.
    destruct (lookup_lt_is_Some_2 batteries k) as [b Hb]; [lia|].
    destruct (lookup_lt_is_Some_2 result k) as [r Hres]; [lia|].
    destruct (lookup_lt_is_Some_2 old k) as [o Hold]; [lia|].
    assert (Hlen : length (expected_retained (take k result) (take k old)) = k).
    { rewrite expected_retained_length; rewrite !length_take; lia. }
    rewrite (take_S_r _ _ _ Hb), (take_S_r _ _ _ Hres), (take_S_r _ _ _ Hold).
    rewrite expected_retained_snoc by (rewrite !length_take; lia).
    rewrite expected_calls_snoc by (rewrite !length_take; lia).
    rewrite (drop_S _ _ _ Hold).
    rewrite Hb, Hres.
    destruct r as [r|].
    + rewrite lookup_app_r by lia. rewrite Hlen, Nat.sub_diag. simpl.
      rewrite insert_app_r_alt by lia. rewrite Hlen, Nat.sub_diag. simpl.
      rewrite <- app_assoc. simpl. f_equal.
      unfold differs, CFEqual. destruct o as [o|].
      * destruct (decide (o = r)) as [->|Hne].
        -- rewrite !bool_decide_eq_true_2 by reflexivity. simpl.
           rewrite app_nil_r. reflexivity.
        -- rewrite !bool_decide_eq_false_2 by congruence. reflexivity.
      * rewrite bool_decide_eq_false_2 by discriminate. reflexivity.
    + rewrite app_nil_r, <- app_assoc. reflexivity.
Qed.

(** The loop does what is expected of it. *)
Lemma publish_spec batteries result old :
  length result = length batteries -> length old = length batteries ->
  publish batteries result old
  = (expected_retained result old, expected_calls batteries result old).
Proof.
  intros Hr Ho. unfold publish.
  rewrite publish_prefix by lia.
  rewrite !take_ge, drop_ge, app_nil_r by lia. reflexivity.
Qed.

Lemma expected_calls_retained batteries result old :
  expected_calls batteries result (expected_retained result old) = [].
Proof.
  revert result old.
  induction batteries as [|b batteries IH]; intros [|r result] [|o old];
    simpl; try reflexivity.
  rewrite IH, app_nil_r. destruct r as [r|]; [|reflexivity].
  unfold differs. rewrite bool_decide_eq_true_2 by reflexivity. reflexivity.
Qed.

Lemma expected_retained_idem result old :
  expected_retained result (expected_retained result old)
  = expected_retained result old.
Proof.
  revert old. induction result as [|r result IH]; intros [|o old];
    simpl; try reflexivity.
  rewrite IH. destruct r; reflexivity.
Qed.

Lemma expected_calls_fresh batteries (records : list CFDictionary) :
  length records = length batteries ->
  expected_calls batteries (Some <$> records)
                 (old_battery_init (length batteries))
  = zip (dynamicStoreKey <$> batteries) records.
Proof.
  revert records. unfold old_battery_init.
  induction batteries as [|b batteries IH]; intros [|r records] Hlen;
    simpl in *; try discriminate; [reflexivity|].
  rewrite IH by lia. reflexivity.
Qed.

End PublisherFacts.

(** C5. Over arrays of [batCount] entries, a run of the publishing loop
    sends the record built for an index exactly when it differs from the
    record retained for that index (or none is retained), and retains
    every record built. Hence a second run on the same records sends
    nothing and leaves the retained records as they are; and when nothing
    was retained before, the first run sends one record per battery, each
    under the battery's key. *)
Theorem publish_only_changes
  (batteries : list IOPMBattery) (result old : list (option CFDictionary)) :
  length result = length batteries ->
  length old = length batteries ->
  let run1 := publish batteries result old in
  let run2 := publish batteries result (fst run1) in
  run1 = (expected_retained result old, expected_calls batteries result old)
  /\ snd run2 = []
  /\ fst run2 = fst run1
  /\ (forall records : list CFDictionary,
        result = Some <$> records ->
        old = old_battery_init (length batteries) ->
        snd run1 = zip (dynamicStoreKey <$> batteries) records
        /\ length (snd run1) = length batteries).
Proof.
  intros Hr Ho run1 run2.
  assert (H1 : run1 = (expected_retained result old,
                       expected_calls batteries result old))
    by (apply publish_spec; assumption).
  assert (H2 : run2 = (expected_retained result (fst run1),
                       expected_calls batteries result (fst run1))).
  { apply publish_spec; [assumption|]. rewrite H1. cbn [fst].
    rewrite expected_retained_length; lia. }
  split; [exact H1|]. rewrite H2, H1. cbn [fst snd].
  split; [apply expected_calls_retained|].
  split; [apply expected_retained_idem|].
  intros records -> ->.
  rewrite length_fmap in Hr.
  rewrite expected_calls_fresh by assumption.
  split; [reflexivity|].
  rewrite length_zip_with, length_fmap. lia.
Qed.

(** The sample battery, published twice from an empty store. *)
Lemma publish_only_changes_witness :
  let result := fst (_packageBatteryInfo globals_init [sample_discharging]) in
  let run1 := publish [sample_discharging] result (old_battery_init 1) in
  length (snd run1) = 1%nat
  /\ snd (publish [sample_discharging] result (fst run1)) = [].
Proof.
  intros result run1.
  destruct (publish_only_changes [sample_discharging] result
              (old_battery_init 1) eq_refl eq_refl)
    as (_ & Hsecond & _ & Hfresh).
  split; [|exact Hsecond].
  exact (proj2 (Hfresh [fst (packageBatteryInfo_body globals_init
                                sample_discharging)] eq_refl eq_refl)).
Defined.

(** ** The flag and the clock *)

(** The order of doubles, by cases on the comparisons of exponents and
    mantissas. *)
Ltac order_cases :=
  repeat match goal with
         | |- context [Z.compare ?a ?b] => destruct (Z.compare_spec a b); subst
         | |- context [Pos.compare ?a ?b] => destruct (Pos.compare_spec a b); subst
         end;
  cbn [CompOpp]; intros; try reflexivity; try discriminate; try (exfalso; lia).

Lemma leb_trans x y z : leb x y = true -> leb y z = true -> leb x z = true.
Proof.
  unfold leb, SFleb.
  destruct x as [[|]|[|]| |[|] mx ex], y as [[|]|[|]| |[|] my ey],
    z as [[|]|[|]| |[|] mz ez]; cbn [SFcompare];
    try (intros; reflexivity); try (intros H; discriminate H);
    try (intros _ H; discriminate H);
    change (PosDef.Pos.compare_cont Eq) with Pos.compare; order_cases.
Qed.

(** What lies above something is not a NaN. *)
Lemma leb_refl_of_ltb x d : ltb x d = true -> leb d d = true.
Proof.
  unfold leb, ltb, SFleb, SFltb.
  destruct d as [[|]|[|]| |[|] m e]; cbn [SFcompare];
    try (intros; reflexivity);
    [destruct x as [[|]|[|]| |[|] mx ex]; intros H; discriminate H|..];
    intros _; rewrite Z.compare_refl;
    change (PosDef.Pos.compare_cont Eq) with Pos.compare;
    rewrite Pos.compare_refl; reflexivity.
Qed.

Lemma ltb_leb x y : ltb x y = true -> leb x y = true.
Proof.
  unfold ltb, leb, SFltb, SFleb.
  destruct (SFcompare x y) as [[| |]|]; try discriminate; reflexivity.
Qed.

(** With inputs as [positiveWakeSecs] has them, the deadline computed by
    [_discontinuityOccurred] is later than the clock reading. *)
Lemma deadline_ahead now b0 batts :
  leb (S754_zero false) now = true ->
  positiveWakeSecs now (b0 :: batts) ->
  ltb now (add now (of_Z (invalidWakeSecs b0))) = true.
Proof.
  intros Hnn (Hsecs & Hvalid & Hlt).
  apply add_seconds_later; assumption.
Qed.

Lemma tracker_inv_reachable t0 w :
  leb (S754_zero false) t0 = true ->
  reachable positiveWakeSecs t0 w -> tracker_inv w.
Proof.
  intros Ht0 Hreach.
  induction Hreach as [|w t Hreach IH Hle Hbefore
                       |w batts Hreach IH Hpos
                       |w d Hreach IH Htimer].
  - unfold tracker_inv. cbn. split; [exact Ht0|]. split; [reflexivity|exact Ht0].
  - unfold tracker_inv in *. cbn [clock globals]. destruct IH as [Hnn IH].
    split; [exact (leb_trans _ _ _ Hnn Hle)|].
    destruct (_timeSettledTimer (globals w)) as [d|].
    + destruct IH as (Hd & Hflag & _).
      split; [exact Hd|]. split; [exact Hflag|]. apply Hbefore. reflexivity.
    + destruct IH as (Hflag & Hpast). split; [exact Hflag|].
      exact (leb_trans _ _ _ Hpast Hle).
  - destruct batts as [|b0 batts].
    + destruct w. exact IH.
    + destruct IH as [Hnn _]. unfold tracker_inv.
      cbn [clock globals _discontinuityOccurred _timeSettledTimer
           _estimatesInvalidUntil _ignoringTimeRemainingEstimates].
      split; [exact Hnn|]. split; [reflexivity|]. split; [reflexivity|].
      exact (deadline_ahead _ _ _ Hnn Hpos).
  - unfold tracker_inv in *. rewrite Htimer in IH.
    destruct IH as (Hnn & Hd & _ & Hahead).
    cbn [clock globals _timeRemainingMaybeValid _timeSettledTimer
         _estimatesInvalidUntil _ignoringTimeRemainingEstimates].
    rewrite Hahead. rewrite <- Hd.
    split; [exact (leb_trans _ _ _ Hnn (ltb_leb _ _ Hahead))|].
    split; [reflexivity|]. exact (leb_refl_of_ltb _ _ Hahead).
Qed.

(** C4, as the tracker has it. Start the clock at or after the reference
    date, let time pass, let discontinuities occur at any moment at which
    the clock reads a binary64 value below 2^53 seconds, with any battery
    array whose primary battery has [invalidWakeSecs > 0] (or with none),
    and let the timer fire at its date. Then in every state
    [_ignoringTimeRemainingEstimates] is true if and only if the clock is
    before [_estimatesInvalidUntil], the deadline being the sum the code
    computes in doubles. *)
Theorem flag_tracks_clock_positive (t0 : double) (w : World) :
  leb (S754_zero false) t0 = true ->
  reachable positiveWakeSecs t0 w ->
  flag_tracks_clock w.
Proof.
  intros Ht0 Hreach.
  pose proof (tracker_inv_reachable t0 w Ht0 Hreach) as [_ Hinv].
  unfold flag_tracks_clock in *.
  destruct (_timeSettledTimer (globals w)) as [d|].
  - destruct Hinv as (Hd & Hflag & Hahead). rewrite <- Hd.
    split; intros _; assumption.
  - destruct Hinv as (Hflag & Hpast). rewrite Hflag. split.
    + discriminate.
    + intros Hlt. apply ltb_not_leb in Hlt. congruence.
Qed.

(** Ten seconds into the thirty the sample battery asks for. *)
Lemma flag_tracks_clock_positive_witness :
  flag_tracks_clock
    (mkWorld (of_Z 10)
       (_discontinuityOccurred (of_Z 0) [sample_discharging] globals_init)).
Proof.
  apply (flag_tracks_clock_positive (of_Z 0)).
  - reflexivity.
  - apply (reach_tick positiveWakeSecs (of_Z 0)
             (mkWorld (of_Z 0)
                (_discontinuityOccurred (of_Z 0) [sample_discharging]
                   globals_init)) (of_Z 10)).
    + apply (reach_discontinuity positiveWakeSecs (of_Z 0)
               (mkWorld (of_Z 0) globals_init) [sample_discharging]).
      * apply reach_init.
      * simpl. split; [vm_compute; split; [reflexivity|discriminate]|].
        split; reflexivity.
    + reflexivity.
    + simpl. intros d Hd. injection Hd as <-. reflexivity.
Defined.

(** C4 as stated does not hold: a discontinuity seen with a primary
    battery whose [invalidWakeSecs] is 0 sets the flag and puts the
    deadline at the present moment, which the clock is not before. *)
Lemma flag_tracks_clock_counterexample :
  exists w : World,
    reachable (fun _ _ => True) (of_Z 0) w /\ ~ flag_tracks_clock w.
Proof.
  exists (mkWorld (of_Z 0)
            (_discontinuityOccurred (of_Z 0) [sample_no_wake_delay]
               globals_init)).
  split.
  - apply (reach_discontinuity (fun _ _ => True) (of_Z 0)
             (mkWorld (of_Z 0) globals_init)
             [sample_no_wake_delay]); [apply reach_init|exact I].
  - unfold flag_tracks_clock. simpl. intros [H _].
    specialize (H eq_refl). vm_compute in H. discriminate H.
Qed.

(** The bound on the clock is sharp: at 2^53 seconds a delay of one
    second is lost in the addition, the deadline is the clock reading
    itself, and the flag is set while the clock is not before it. *)
Remark deadline_absorbed (b0 : IOPMBattery) (rest : list IOPMBattery)
  (g : Globals) :
  invalidWakeSecs b0 = 1 ->
  let now := of_Z (2 ^ 53) in
  let g' := _discontinuityOccurred now (b0 :: rest) g in
  _estimatesInvalidUntil g' = now
  /\ ~ flag_tracks_clock (mkWorld now g').
Proof.
  intros Hsecs now g'. subst g'.
  cbn [_discontinuityOccurred _estimatesInvalidUntil]. rewrite Hsecs.
  split; [subst now; vm_compute; reflexivity|].
  unfold flag_tracks_clock.
  cbn [globals clock _estimatesInvalidUntil _ignoringTimeRemainingEstimates].
  intros [H _]. specialize (H eq_refl). subst now. vm_compute in H.
  discriminate H.
Qed.

(** ** The privileged commands *)

Module UserClientFacts.

Import UserClient.

(** The three statuses are three different values. *)
Lemma statuses_differ :
  kIOReturnBadArgument <> kIOReturnNotPrivileged
  /\ kIOReturnBadArgument <> kIOReturnSuccess
  /\ kIOReturnNotPrivileged <> kIOReturnSuccess.
Proof. vm_compute. repeat split; discriminate. Qed.

Lemma level_invalid level :
  level <> 0 -> level <> 1 -> negb ((level =? 0) || (level =? 1)) = true.
Proof.
  intros H0 H1.
  apply Z.eqb_neq in H0. apply Z.eqb_neq in H1. rewrite H0, H1. reflexivity.
Qed.

Lemma level_valid level :
  level = 0 \/ level = 1 -> negb ((level =? 0) || (level =? 1)) = false.
Proof. intros [->| ->]; reflexivity. Qed.

(** C8. Given a level other than 0 and 1, [secureInflowDisable] and
    [secureChargeInhibit] hand the caller [kIOReturnBadArgument], a status
    different from the two others they use, and have no effect outside
    the client: neither [disableInflow] nor [inhibitCharging] is entered,
    with the level given or with any other. *)
Theorem invalid_level_bad_argument
  (this : AppleSmartBatteryManagerUserClient) (level : Z) :
  level <> 0 -> level <> 1 ->
  secureInflowDisable this level
  = mkOutcome kIOReturnSuccess kIOReturnBadArgument []
  /\ secureChargeInhibit this level
     = mkOutcome kIOReturnSuccess kIOReturnBadArgument []
  /\ kIOReturnBadArgument <> kIOReturnNotPrivileged
  /\ kIOReturnBadArgument <> kIOReturnSuccess.
Proof.
  intros H0 H1. unfold secureInflowDisable, secureChargeInhibit.
  rewrite (level_invalid level H0 H1).
  split; [reflexivity|]. split; [reflexivity|].
  split; apply statuses_differ.
Qed.

Lemma invalid_level_bad_argument_witness :
  secureInflowDisable sample_admin_client 2
  = mkOutcome kIOReturnSuccess kIOReturnBadArgument []
  /\ secureChargeInhibit sample_admin_client 2
     = mkOutcome kIOReturnSuccess kIOReturnBadArgument [].
Proof.
  destruct (invalid_level_bad_argument sample_admin_client 2) as (H1 & H2 & _).
  - lia.
  - lia.
  - split; [exact H1 | exact H2].
Defined.

(** C10. In both commands the level is checked before the privilege.
    Given a level other than 0 and 1, the caller gets
    [kIOReturnBadArgument] whatever [clientHasPrivilege] would answer, and
    [clientHasPrivilege] is not asked. Given 0 or 1, a caller for whom
    [clientHasPrivilege] does not answer success gets
    [kIOReturnNotPrivileged], and the control surface is not entered. *)
Theorem level_checked_before_privilege
  (this : AppleSmartBatteryManagerUserClient) (level : Z) :
  (level <> 0 -> level <> 1 ->
     return_code (secureInflowDisable this level) = kIOReturnBadArgument
     /\ return_code (secureChargeInhibit this level) = kIOReturnBadArgument
     /\ (ClientHasPrivilege ∉ effects (secureInflowDisable this level))
     /\ (ClientHasPrivilege ∉ effects (secureChargeInhibit this level)))
  /\ (level = 0 \/ level = 1 ->
      clientHasPrivilege this <> kIOReturnSuccess ->
      return_code (secureInflowDisable this level) = kIOReturnNotPrivileged
      /\ return_code (secureChargeInhibit this level) = kIOReturnNotPrivileged
      /\ effects (secureInflowDisable this level) = [ClientHasPrivilege]
      /\ effects (secureChargeInhibit this level) = [ClientHasPrivilege]
      /\ forallb (fun e => negb (invokesControlSurface e))
           (effects (secureInflowDisable this level)
            ++ effects (secureChargeInhibit this level)) = true).
Proof.
  split.
  - intros H0 H1. unfold secureInflowDisable, secureChargeInhibit.
    rewrite (level_invalid level H0 H1). simpl.
    repeat split; apply not_elem_of_nil.
  - intros Hlevel Hpriv. unfold secureInflowDisable, secureChargeInhibit.
    rewrite (level_valid level Hlevel).
    assert (Hne : (kIOReturnSuccess =? clientHasPrivilege this) = false)
      by (apply Z.eqb_neq; congruence).
    rewrite Hne. repeat split.
Qed.

Lemma level_checked_before_privilege_witness :
  return_code (secureInflowDisable sample_user_client 2) = kIOReturnBadArgument
  /\ return_code (secureInflowDisable sample_user_client 1)
     = kIOReturnNotPrivileged
  /\ effects (secureChargeInhibit sample_user_client 1) = [ClientHasPrivilege].
Proof.
  destruct (level_checked_before_privilege sample_user_client 2) as [Hbad _].
  destruct (level_checked_before_privilege sample_user_client 1) as [_ Hnot].
  destruct Hbad as (Hb & _); [lia|lia|].
  destruct Hnot as (Hn & _ & _ & He & _);
    [right; reflexivity|vm_compute; discriminate|].
  split; [exact Hb|]. split; [exact Hn|exact He].
Defined.

End UserClientFacts.

(** * Further properties *)

(** ** More on the estimator *)

Lemma in_range_sample z :
  (Int.min_signed <=? z) && (z <=? Int.max_signed) = true -> Int.in_range z.
Proof.
  intros H. apply andb_true_iff in H as [H1 H2].
  apply Z.leb_le in H1. apply Z.leb_le in H2. split; assumption.
Qed.

(** X1. The estimator goes on to compute an estimate exactly when the
    average current is not zero, its absolute value lies between 0.5 times
    and 2.0 times the absolute instantaneous current (both ends included)
    when the battery reports InstantAmperage, or between 5 and 15000 when
    it does not, and [_ignoringTimeRemainingEstimates] is clear. The
    currents are [int]s other than the most negative one. *)
Theorem estimate_computed_iff (g : Globals) (b : IOPMBattery) :
  Int.in_range (avgAmperage b) -> avgAmperage b <> Int.min_signed ->
  Int.in_range (instantAmperage b) ->
  (_batteryHas b kInstantAmperageKey = true ->
   instantAmperage b <> Int.min_signed) ->
  let avg := Z.abs (avgAmperage b) in
  let inst := Z.abs (instantAmperage b) in
  estimateInvalid g b = false
  <-> avgAmperage b <> 0
      /\ (if _batteryHas b kInstantAmperageKey
          then inst <= 2 * avg /\ avg <= 2 * inst
          else 5 <= avg <= 15000)
      /\ _ignoringTimeRemainingEstimates g = false.
Proof.
  intros Hra Hna Hri Hni avg inst.
  rewrite estimateInvalid_exact by assumption. fold avg inst.
  rewrite !orb_false_iff, Z.eqb_neq.
  destruct (_batteryHas b kInstantAmperageKey);
    rewrite orb_false_iff, !Z.ltb_ge; tauto.
Qed.

Lemma estimate_computed_iff_witness :
  estimateInvalid globals_init sample_discharging = false
  <-> avgAmperage sample_discharging <> 0
      /\ (1000 <= 2 * 1000 /\ 1000 <= 2 * 1000)
      /\ _ignoringTimeRemainingEstimates globals_init = false.
Proof.
  apply (estimate_computed_iff globals_init sample_discharging).
  - apply in_range_sample. reflexivity.
  - discriminate.
  - apply in_range_sample. reflexivity.
  - discriminate.
Defined.

Lemma populate_body_frame indefinite g b :
  populateTimeRemaining_body indefinite g b
  = set_swCalculatedTR
      (swCalculatedTR (populateTimeRemaining_body indefinite g b)) b.
Proof.
  unfold populateTimeRemaining_body, capTimeRemaining.
  destruct (estimateInvalid g b); [reflexivity|].
  destruct (_useBatteryTimeEstimate g); cbn [swCalculatedTR set_swCalculatedTR];
    repeat match goal with
           | |- context [if ?c then _ else _] => destruct c
           end; reflexivity.
Qed.

Lemma populate_body_ignores_estimate indefinite g v b :
  populateTimeRemaining_body indefinite g (set_swCalculatedTR v b)
  = populateTimeRemaining_body indefinite g b.
Proof. reflexivity. Qed.

(** X2. A cycle of the estimator keeps the number of batteries, changes
    nothing of a battery but [swCalculatedTR], and does not read the
    estimate of the cycle before: a second cycle under the same globals
    leaves the batteries as the first one left them. *)
Theorem populateTimeRemaining_frame_idempotent
  (indefinite : Z) (g : Globals) (batts : list IOPMBattery) :
  let batts' := snd (_populateTimeRemaining indefinite g batts) in
  length batts' = length batts
  /\ (forall i b b',
        batts !! i = Some b -> batts' !! i = Some b' ->
        b' = set_swCalculatedTR (swCalculatedTR b') b)
  /\ snd (_populateTimeRemaining indefinite g batts') = batts'.
Proof.
  cbn zeta. unfold _populateTimeRemaining. cbn [snd].
  split; [apply length_fmap|]. split.
  - intros i b b' Hb Hb'. rewrite list_lookup_fmap, Hb in Hb'.
    injection Hb' as <-. apply populate_body_frame.
  - rewrite <- list_fmap_compose. apply list_fmap_ext.
    intros i b _. simpl.
    rewrite (populate_body_frame indefinite g b) at 1.
    apply populate_body_ignores_estimate.
Qed.

Lemma of_Z_nonzero_finite z :
  Int.in_range z -> z <> 0 -> exists s m e, of_Z z = S754_finite s m e.
Proof.
  unfold Int.in_range, Int.min_signed, Int.max_signed. intros Hr Hz.
  destruct (Z_lt_le_dec z 0).
  - destruct (of_Z_negative z) as (m & e & H); [lia|]. eauto.
  - destruct (of_Z_positive z) as (m & e & H); [lia|]. eauto.
Qed.

Lemma estimateInvalid_avg_nonzero g b :
  estimateInvalid g b = false -> avgAmperage b <> 0.
Proof.
  rewrite estimateInvalid_unfold. intros H Hz. rewrite Hz in H. discriminate.
Qed.

(** X3. When the manual calculation is used on a battery that passed the
    checks, a charging battery whose current capacity equals its maximum
    capacity gets 0 minutes, and so does a battery not charging whose
    current capacity is 0, whatever the average current is. *)
Theorem nothing_left_is_zero_minutes
  (indefinite : Z) (g : Globals) (b : IOPMBattery) :
  estimateInvalid g b = false ->
  _useBatteryTimeEstimate g = false ->
  Int.in_range (avgAmperage b) ->
  (isCharging b = true /\ currentCap b = maxCap b)
  \/ (isCharging b = false /\ currentCap b = 0) ->
  swCalculatedTR (populateTimeRemaining_body indefinite g b) = 0.
Proof.
  intros Hvalid Huse Hr Hcase.
  destruct (of_Z_nonzero_finite _ Hr (estimateInvalid_avg_nonzero g b Hvalid))
    as (s & m & e & Hof).
  unfold populateTimeRemaining_body. rewrite Hvalid, Huse.
  assert (Hm : manualMinutes b = S754_zero (negb s)
               \/ manualMinutes b = S754_zero s).
  { unfold manualMinutes.
    destruct Hcase as [[Hc Hcap]|[Hc Hcap]]; rewrite Hc, Hof.
    - right. rewrite Hcap. unfold Int.sub. rewrite Z.sub_diag.
      destruct s; reflexivity.
    - left. rewrite Hcap. destruct s; reflexivity. }
  rewrite capTimeRemaining_spec, swCalculatedTR_set.
  destruct Hm as [-> | ->]; reflexivity.
Qed.

Lemma nothing_left_is_zero_minutes_witness :
  swCalculatedTR
    (populateTimeRemaining_body 0 globals_init
       (mkBattery ∅ false true true false 5000 5000 5500 900 0 12 0 7 30
          None None "State:/IOKit/PowerSources/InternalBattery-0" None))
  = 0.
Proof.
  apply nothing_left_is_zero_minutes.
  - vm_compute. reflexivity.
  - reflexivity.
  - apply in_range_sample. reflexivity.
  - left. split; reflexivity.
Defined.

(** X4. A wake notification seen with at least one battery sets
    [_ignoringTimeRemainingEstimates], and a cycle of the estimator under
    the globals it leaves gives every battery the estimate -1. Any other
    message leaves the globals as they are. *)
Theorem wake_suppresses_estimates
  (indefinite : Z) (now : double) (messageType : Z)
  (batteries : list IOPMBattery) (g : Globals) :
  (messageType <> kIOMessageSystemWillPowerOn ->
   BatteryTimeRemainingSleepWakeNotification messageType now batteries g = g)
  /\ (batteries <> [] ->
      let g' := BatteryTimeRemainingSleepWakeNotification
                  kIOMessageSystemWillPowerOn now batteries g in
      _ignoringTimeRemainingEstimates g' = true
      /\ Forall (fun b => swCalculatedTR b = -1)
                (snd (_populateTimeRemaining indefinite g' batteries))).
Proof.
  split.
  - intros Hm. unfold BatteryTimeRemainingSleepWakeNotification.
    destruct (Z.eqb_spec kIOMessageSystemWillPowerOn messageType);
      [congruence|reflexivity].
  - intros Hne. destruct batteries as [|b0 rest]; [contradiction|].
    cbn zeta. unfold BatteryTimeRemainingSleepWakeNotification.
    rewrite Z.eqb_refl. cbn [_discontinuityOccurred].
    split; [reflexivity|].
    unfold _populateTimeRemaining. cbn [snd].
    apply Forall_fmap, Forall_forall. intros b _. simpl.
    rewrite populate_rejected; [reflexivity|].
    rewrite estimateInvalid_unfold. cbn [_ignoringTimeRemainingEstimates].
    apply orb_true_r.
Qed.

Lemma wake_suppresses_estimates_witness :
  Forall (fun b => swCalculatedTR b = -1)
    (snd (_populateTimeRemaining 0
            (BatteryTimeRemainingSleepWakeNotification
               kIOMessageSystemWillPowerOn (of_Z 100) [sample_discharging]
               globals_init)
            [sample_discharging])).
Proof.
  apply (wake_suppresses_estimates 0 (of_Z 100) 0 [sample_discharging] globals_init).
  discriminate.
Defined.

(** ** More on the tracker *)

(** X5. Whatever the batteries ask for, in every state the tracker can
    reach [_ignoringTimeRemainingEstimates] is set exactly while a timer
    is pending, and the fire date of a pending timer is
    [_estimatesInvalidUntil]: the flag is never left set without the timer
    that will clear it. *)
Theorem flag_set_iff_timer_pending
  (telemetry : double -> list IOPMBattery -> Prop) (t0 : double)
  (w : World) :
  reachable telemetry t0 w ->
  (_ignoringTimeRemainingEstimates (globals w) = true
   <-> is_Some (_timeSettledTimer (globals w)))
  /\ (forall d, _timeSettledTimer (globals w) = Some d ->
                d = _estimatesInvalidUntil (globals w)).
Proof.
  intros Hreach.
  induction Hreach as [|w t Hreach IH Hle Hbefore
                       |w batts Hreach IH Hpos
                       |w d Hreach IH Htimer]; simpl.
  - split; [|discriminate]. split; [discriminate|].
    intros [d Hd]. discriminate.
  - exact IH.
  - destruct batts as [|b0 batts]; [exact IH|]. simpl. split.
    + split; [intros _; eexists; reflexivity|reflexivity].
    + intros d [= <-]. reflexivity.
  - split; [|discriminate]. split; [discriminate|].
    intros [d' Hd']. discriminate.
Qed.

Lemma flag_set_iff_timer_pending_witness :
  _ignoringTimeRemainingEstimates
    (_discontinuityOccurred (of_Z 5) [sample_no_wake_delay] globals_init)
  = true
  <-> is_Some (_timeSettledTimer
                 (_discontinuityOccurred (of_Z 5) [sample_no_wake_delay]
                    globals_init)).
Proof.
  apply (flag_set_iff_timer_pending (fun _ _ => True) (of_Z 5)
           (mkWorld (of_Z 5)
              (_discontinuityOccurred (of_Z 5) [sample_no_wake_delay]
                 globals_init))).
  apply (reach_discontinuity (fun _ _ => True) (of_Z 5)
           (mkWorld (of_Z 5) globals_init)
           [sample_no_wake_delay]); [apply reach_init|exact I].
Defined.

(** ** More on the classifier *)

(** Two positive doubles of one exponent bound alike, the one of the
    smaller mantissa more tightly. *)
Lemma leb_finite_mono (lo hi : positive) (e0 : Z) (r : double) :
  (lo < hi)%positive ->
  leb r (S754_finite false lo e0) = true ->
  leb r (S754_finite false hi e0) = true.
Proof.
  intros Hlt. unfold leb, SFleb.
  destruct r as [s|[|]| |[|] m e]; cbn [SFcompare];
    try (intros _; reflexivity); try (intros H; discriminate H).
  destruct (e ?= e0); [|intros; reflexivity|intros H; discriminate H].
  change (PosDef.Pos.compare_cont Eq) with Pos.compare.
  destruct (Pos.compare_spec m lo) as [Heq|Hl|Hg].
  - intros _. subst m. unfold Pos.lt in Hlt. rewrite Hlt. reflexivity.
  - intros _. pose proof (Pos.lt_trans _ _ _ Hl Hlt) as Hc.
    unfold Pos.lt in Hc. rewrite Hc. reflexivity.
  - intros H. discriminate H.
Qed.

(** What is at most 0.80 is at most 0.83. *)
Lemma leb_d0_80_d0_83 (r : double) : leb r d0_80 = true -> leb r d0_83 = true.
Proof. apply leb_finite_mono. reflexivity. Qed.

(** The classifier reads the latch of a battery and nothing else that
    setting the latch changes. *)
Lemma classifier_on_latch (outDict : CFDictionary) v b :
  _setBatteryHealthConfidence outDict (set_markedNeedsReplacement v b)
  = if negb (isPresent b) then (outDict, set_markedNeedsReplacement v b)
    else if permanentFailure b then
      (<[kIOPSHealthConfidenceKey := CFString kIOPSGoodValue]>
         (<[kIOPSBatteryHealthKey := CFString kIOPSPoorValue]> outDict),
       set_markedNeedsReplacement v b)
    else if _batteryHas b kIOPMPSMaxCapacityKey
            && _batteryHas b kIOPMPSDesignCapacityKey then
      let fair := leb (healthRatio b) (if v then d0_83 else d0_80)
                  && (cycleCount b <? 300) in
      (<[kIOPSHealthConfidenceKey := CFString kIOPSGoodValue]>
         (<[kIOPSBatteryHealthKey :=
              CFString (if fair then kIOPSFairValue else kIOPSGoodValue)]>
            outDict),
       set_markedNeedsReplacement fair b)
    else (outDict, set_markedNeedsReplacement v b).
Proof.
  unfold _setBatteryHealthConfidence.
  change (isPresent (set_markedNeedsReplacement v b)) with (isPresent b).
  change (permanentFailure (set_markedNeedsReplacement v b))
    with (permanentFailure b).
  change (_batteryHas (set_markedNeedsReplacement v b)) with (_batteryHas b).
  change (healthRatio (set_markedNeedsReplacement v b)) with (healthRatio b).
  change (cycleCount (set_markedNeedsReplacement v b)) with (cycleCount b).
  change (markedNeedsReplacement (set_markedNeedsReplacement v b)) with v.
  destruct (negb (isPresent b)); [reflexivity|].
  destruct (permanentFailure b); [reflexivity|].
  destruct (_batteryHas b kIOPMPSMaxCapacityKey
            && _batteryHas b kIOPMPSDesignCapacityKey); [|reflexivity].
  cbv zeta.
  destruct v;
    [destruct (leb (healthRatio b) d0_83 && (cycleCount b <? 300))
    |destruct (leb (healthRatio b) d0_80 && (cycleCount b <? 300))];
    reflexivity.
Qed.

Lemma set_markedNeedsReplacement_same b :
  set_markedNeedsReplacement (markedNeedsReplacement b) b = b.
Proof. destruct b. reflexivity. Qed.

(** Once reported Fair the battery stays Fair, once Good it stays Good:
    the test the latch selects agrees with the latch it produced. *)
Lemma fair_is_stable b :
  let fair := leb (healthRatio b)
                  (if markedNeedsReplacement b then d0_83 else d0_80)
              && (cycleCount b <? 300) in
  leb (healthRatio b) (if fair then d0_83 else d0_80) && (cycleCount b <? 300)
  = fair.
Proof.
  cbv zeta.
  destruct (markedNeedsReplacement b);
    destruct (leb (healthRatio b) d0_83) eqn:H83;
    destruct (leb (healthRatio b) d0_80) eqn:H80;
    destruct (cycleCount b <? 300); cbn [andb];
    rewrite ?H83, ?H80; try reflexivity;
    apply leb_d0_80_d0_83 in H80; congruence.
Qed.

Lemma classifier_fixed_point (outDict : CFDictionary) (b : IOPMBattery) :
  let r := _setBatteryHealthConfidence outDict b in
  _setBatteryHealthConfidence outDict (snd r) = r.
Proof.
  cbv zeta.
  rewrite <- (set_markedNeedsReplacement_same b).
  rewrite (classifier_on_latch outDict (markedNeedsReplacement b) b).
  destruct (negb (isPresent b)) eqn:Hp;
    [cbn [snd]; rewrite classifier_on_latch, Hp; reflexivity|].
  destruct (permanentFailure b) eqn:Hf;
    [cbn [snd]; rewrite classifier_on_latch, Hp, Hf; reflexivity|].
  destruct (_batteryHas b kIOPMPSMaxCapacityKey
            && _batteryHas b kIOPMPSDesignCapacityKey) eqn:Hk;
    [|cbn [snd]; rewrite classifier_on_latch, Hp, Hf, Hk; reflexivity].
  cbv zeta. cbn [snd].
  rewrite classifier_on_latch, Hp, Hf, Hk. cbv zeta.
  rewrite (fair_is_stable b). reflexivity.
Qed.

(** X6. The classifier settles in one step: applied again to the battery
    it has just classified, it writes the same health and confidence and
    leaves the battery, its latch included, as it is. In particular a
    battery latched by a ratio of at most 0.80 is not released by the
    next cycle. *)
Theorem classifier_settles (outDict : CFDictionary) (b : IOPMBattery) :
  let r := _setBatteryHealthConfidence outDict b in
  _setBatteryHealthConfidence outDict (snd r) = r.
Proof. exact (classifier_fixed_point outDict b). Qed.

(** ** More on the packaged record *)

(** The record is what the classifier makes of the dictionary built so
    far, with the name added. *)
Lemma package_body_split g b :
  packageBatteryInfo_body g b
  = (<[kIOPSNameKey :=
         CFString (default "Unnamed"
                     (name (snd (_setBatteryHealthConfidence
                                   (packageBatteryInfo_front g b) b))))]>
       (fst (_setBatteryHealthConfidence (packageBatteryInfo_front g b) b)),
     snd (_setBatteryHealthConfidence (packageBatteryInfo_front g b) b)).
Proof.
  unfold packageBatteryInfo_body, packageBatteryInfo_front.
  destruct (capacityPercent b) as [set_capacity set_charge]. cbn [fst snd].
  match goal with
  | |- context [_setBatteryHealthConfidence ?d b] =>
      destruct (_setBatteryHealthConfidence d b) as [d' b']
  end.
  reflexivity.
Qed.

(** The classifier changes nothing of a battery but the latch. *)
Lemma classifier_frame (outDict : CFDictionary) b :
  snd (_setBatteryHealthConfidence outDict b)
  = set_markedNeedsReplacement
      (markedNeedsReplacement (snd (_setBatteryHealthConfidence outDict b))) b.
Proof.
  unfold _setBatteryHealthConfidence.
  repeat match goal with
         | |- context [if ?c then _ else _] => destruct c eqn:?
         end; cbn [fst snd];
    rewrite ?set_markedNeedsReplacement_same; reflexivity.
Qed.

Ltac dict_lookup :=
  repeat first
    [ rewrite lookup_insert_eq
    | rewrite lookup_insert_ne by discriminate
    | rewrite setTimes_lookup by discriminate
    | rewrite lookup_empty ].

Lemma front_no_health g b :
  packageBatteryInfo_front g b !! kIOPSBatteryHealthKey = None
  /\ packageBatteryInfo_front g b !! kIOPSHealthConfidenceKey = None.
Proof.
  unfold packageBatteryInfo_front.
  destruct (_useBatteryTimeEstimate g), (_ignoringTimeRemainingEstimates g),
    (failureDetected b), (chargeStatus b); split; dict_lookup; reflexivity.
Qed.

Lemma package_lookup_front g b k :
  k <> kIOPSNameKey -> k <> kIOPSBatteryHealthKey ->
  k <> kIOPSHealthConfidenceKey ->
  fst (packageBatteryInfo_body g b) !! k = packageBatteryInfo_front g b !! k.
Proof.
  intros Hn Hh Hc. rewrite package_body_split. cbn [fst].
  rewrite lookup_insert_ne by (apply not_eq_sym; exact Hn).
  apply classifier_lookup; assumption.
Qed.

Lemma package_lookup_health g b k :
  k = kIOPSBatteryHealthKey \/ k = kIOPSHealthConfidenceKey ->
  fst (packageBatteryInfo_body g b) !! k
  = fst (_setBatteryHealthConfidence (packageBatteryInfo_front g b) b) !! k.
Proof.
  intros Hk. rewrite package_body_split. cbn [fst].
  destruct Hk as [-> | ->]; apply lookup_insert_ne; discriminate.
Qed.

Lemma package_health_lookup (g : Globals) (b : IOPMBattery) :
  let d := fst (packageBatteryInfo_body g b) in
  let rated :=
    isPresent b
    && (permanentFailure b
        || (_batteryHas b kIOPMPSMaxCapacityKey
            && _batteryHas b kIOPMPSDesignCapacityKey)) in
  d !! kIOPSHealthConfidenceKey
  = (if rated then Some (CFString kIOPSGoodValue) else None)
  /\ (if rated
      then if permanentFailure b
           then d !! kIOPSBatteryHealthKey = Some (CFString kIOPSPoorValue)
           else d !! kIOPSBatteryHealthKey = Some (CFString kIOPSFairValue)
                \/ d !! kIOPSBatteryHealthKey = Some (CFString kIOPSGoodValue)
      else d !! kIOPSBatteryHealthKey = None).
Proof.
  cbv zeta.
  rewrite !package_lookup_health by auto.
  destruct (front_no_health g b) as [Hh Hc].
  unfold _setBatteryHealthConfidence.
  destruct (isPresent b); cbn [negb andb fst]; [|split; assumption].
  destruct (permanentFailure b); cbn [orb fst].
  { split; dict_lookup; reflexivity. }
  destruct (_batteryHas b kIOPMPSMaxCapacityKey
            && _batteryHas b kIOPMPSDesignCapacityKey);
    [|split; assumption].
  destruct (markedNeedsReplacement b);
    [destruct (leb (healthRatio b) d0_83 && (cycleCount b <? 300))
    |destruct (leb (healthRatio b) d0_80 && (cycleCount b <? 300))];
    cbn [fst]; split; dict_lookup; auto.
Qed.

(** X7. In the record packaged for a battery, health and confidence come
    together or not at all: both are there exactly when the battery is
    present and either reports a permanent failure or reports both
    MaxCapacity and DesignCapacity. The confidence, when there, is Good;
    the health is Poor exactly in the case of the permanent failure, and
    Fair or Good otherwise. *)
Theorem health_and_confidence_together (g : Globals) (b : IOPMBattery) :
  let d := fst (packageBatteryInfo_body g b) in
  let rated :=
    isPresent b
    && (permanentFailure b
        || (_batteryHas b kIOPMPSMaxCapacityKey
            && _batteryHas b kIOPMPSDesignCapacityKey)) in
  d !! kIOPSHealthConfidenceKey
  = (if rated then Some (CFString kIOPSGoodValue) else None)
  /\ (if rated
      then if permanentFailure b
           then d !! kIOPSBatteryHealthKey = Some (CFString kIOPSPoorValue)
           else d !! kIOPSBatteryHealthKey = Some (CFString kIOPSFairValue)
                \/ d !! kIOPSBatteryHealthKey = Some (CFString kIOPSGoodValue)
      else d !! kIOPSBatteryHealthKey = None).
Proof. exact (package_health_lookup g b). Qed.

(** X8. The record packaged for a battery that is not present says so,
    has the charging flag false and both times 0, and has neither health
    nor confidence, whatever else the battery reports. *)
Theorem absent_battery_record (g : Globals) (b : IOPMBattery) :
  isPresent b = false ->
  let d := fst (packageBatteryInfo_body g b) in
  d !! kIOPSIsPresentKey = Some kCFBooleanFalse
  /\ d !! kIOPSIsChargingKey = Some kCFBooleanFalse
  /\ d !! kIOPSTimeToFullChargeKey = Some (CFNumber 0)
  /\ d !! kIOPSTimeToEmptyKey = Some (CFNumber 0)
  /\ d !! kIOPSBatteryHealthKey = None
  /\ d !! kIOPSHealthConfidenceKey = None.
Proof.
  intros Hp. cbv zeta.
  destruct (package_health_lookup g b) as [Hc Hh].
  rewrite Hp in Hc, Hh. cbn [andb] in Hc, Hh.
  rewrite !package_lookup_front by discriminate.
  unfold packageBatteryInfo_front, setTimes. rewrite Hp. cbn [negb].
  repeat split; try assumption; dict_lookup; reflexivity.
Qed.

Lemma absent_battery_record_witness :
  fst (packageBatteryInfo_body globals_init sample_absent_failed)
    !! kIOPSTimeToEmptyKey = Some (CFNumber 0).
Proof.
  apply (absent_battery_record globals_init sample_absent_failed eq_refl).
Defined.

(** X9. The record packaged for a battery that is present gives the
    charging flag and the two times as follows. With the estimate at -1:
    the battery's own charging flag and -1 for both times. Otherwise, if
    the battery is charging: true, the estimate as time to full, 0 as time
    to empty; if it is not charging and on external power: false and 0 for
    both; if it is not charging and on battery: false, 0 as time to full,
    the estimate as time to empty. *)
Theorem present_battery_times (g : Globals) (b : IOPMBattery) :
  isPresent b = true ->
  let d := fst (packageBatteryInfo_body g b) in
  let minutes := swCalculatedTR b in
  let '(charging, toFull, toEmpty) :=
    if minutes =? -1 then (isCharging b, -1, -1)
    else if isCharging b then (true, minutes, 0)
    else if externalConnected b then (false, 0, 0)
    else (false, 0, minutes) in
  d !! kIOPSIsChargingKey = Some (CFBoolean charging)
  /\ d !! kIOPSTimeToFullChargeKey = Some (CFNumber toFull)
  /\ d !! kIOPSTimeToEmptyKey = Some (CFNumber toEmpty).
Proof.
  intros Hp. cbv zeta.
  rewrite !package_lookup_front by discriminate.
  unfold packageBatteryInfo_front, setTimes. rewrite Hp. cbn [negb].
  rewrite (Z.eqb_sym (-1) (swCalculatedTR b)).
  destruct (swCalculatedTR b =? -1);
    [|destruct (isCharging b); [|destruct (externalConnected b)]];
    repeat split; dict_lookup; reflexivity.
Qed.

Lemma present_battery_times_witness :
  fst (packageBatteryInfo_body globals_init sample_discharging)
    !! kIOPSTimeToFullChargeKey = Some (CFNumber 0).
Proof.
  apply (present_battery_times globals_init sample_discharging eq_refl).
Defined.

(** X10. While a battery is charging its record never shows a current
    capacity of 100, whatever the capacities are. *)
Theorem charging_never_shows_full (g : Globals) (b : IOPMBattery) :
  isCharging b = true ->
  fst (packageBatteryInfo_body g b) !! kIOPSCurrentCapacityKey
  <> Some (CFNumber 100).
Proof.
  intros Hc.
  destruct (package_capacity_lookup g b) as [_ Hcur]. rewrite Hcur.
  unfold capacityPercent. rewrite Hc.
  destruct (negb (0 =? maxCap b)); cbn [snd]; [|discriminate].
  match goal with |- context [100 =? ?r] => destruct (Z.eqb_spec 100 r) end;
    cbn [andb]; [discriminate|congruence].
Qed.

Lemma charging_never_shows_full_witness :
  fst (packageBatteryInfo_body globals_init sample_charging_full)
    !! kIOPSCurrentCapacityKey <> Some (CFNumber 100).
Proof.
  apply (charging_never_shows_full globals_init sample_charging_full eq_refl).
Defined.

(** X11. Every packaged record carries the transport type Internal, the
    power source state (AC Power on external power, Battery Power
    otherwise), the presence flag, and a name, which is the battery's or
    Unnamed. The failure string and the charge status are there exactly
    when the battery has them, unchanged; the two marks of the globals are
    there exactly when the globals are set. None of these entries is
    overwritten by a later one. *)
Theorem record_fixed_and_optional_fields (g : Globals) (b : IOPMBattery) :
  let d := fst (packageBatteryInfo_body g b) in
  d !! kIOPSTransportTypeKey = Some (CFString kIOPSInternalType)
  /\ d !! kIOPSPowerSourceStateKey
     = Some (CFString (if externalConnected b then kIOPSACPowerValue
                       else kIOPSBatteryPowerValue))
  /\ d !! kIOPSIsPresentKey = Some (CFBoolean (isPresent b))
  /\ d !! kIOPSNameKey = Some (CFString (default "Unnamed" (name b)))
  /\ d !! kIOPSFailureKey = CFString <$> failureDetected b
  /\ d !! kIOPMPSBatteryChargeStatusKey = CFString <$> chargeStatus b
  /\ d !! kBatteryProvidesTRKey
     = (if _useBatteryTimeEstimate g then Some kCFBooleanTrue else None)
  /\ d !! kWaitingForTRKey
     = (if _ignoringTimeRemainingEstimates g then Some kCFBooleanTrue
        else None).
Proof.
  cbv zeta.
  assert (Hname : fst (packageBatteryInfo_body g b) !! kIOPSNameKey
                  = Some (CFString (default "Unnamed" (name b)))).
  { rewrite package_body_split. cbn [fst]. rewrite lookup_insert_eq.
    rewrite classifier_frame. reflexivity. }
  repeat split; try exact Hname;
    rewrite package_lookup_front by discriminate;
    unfold packageBatteryInfo_front;
    destruct (_useBatteryTimeEstimate g), (_ignoringTimeRemainingEstimates g),
      (failureDetected b), (chargeStatus b);
    dict_lookup; reflexivity.
Qed.

(** ** More on the publisher *)

Lemma expected_calls_nil_iff
  (batteries : list IOPMBattery) (result old : list (option CFDictionary)) :
  length result = length batteries -> length old = length batteries ->
  expected_calls batteries result old = []
  <-> forall i r, result !! i = Some (Some r) -> old !! i = Some (Some r).
Proof.
  revert result old.
  induction batteries as [|b batteries IH]; intros [|r result] [|o old] Hr Ho;
    simpl in *; try discriminate.
  - split; [intros _ i r' H; rewrite lookup_nil in H; discriminate|reflexivity].
  - assert (Hr' : length result = length batteries) by lia.
    assert (Ho' : length old = length batteries) by lia.
    specialize (IH result old Hr' Ho'). split.
    + intros H. apply app_eq_nil in H as [Hhead Htail].
      intros [|i] r' Hi; simpl in *.
      * injection Hi as ->. unfold differs in Hhead.
        destruct (decide (o = Some r')) as [->|Hne]; [reflexivity|].
        rewrite bool_decide_eq_false_2 in Hhead by assumption. discriminate.
      * apply IH; assumption.
    + intros H. apply app_nil. split.
      * destruct r as [r|]; [|reflexivity].
        pose proof (H 0%nat r eq_refl) as H0. simpl in H0.
        injection H0 as ->. unfold differs.
        rewrite bool_decide_eq_true_2 by reflexivity. reflexivity.
      * apply IH. intros i r' Hi. exact (H (S i) r' Hi).
Qed.

(** X12. A run of the publishing loop makes no call at all exactly when
    every record built equals the record retained for its index. *)
Theorem publish_silent_iff
  (batteries : list IOPMBattery) (result old : list (option CFDictionary)) :
  length result = length batteries ->
  length old = length batteries ->
  snd (publish batteries result old) = []
  <-> forall i r, result !! i = Some (Some r) -> old !! i = Some (Some r).
Proof.
  intros Hr Ho. rewrite publish_spec by assumption. cbn [snd].
  apply expected_calls_nil_iff; assumption.
Qed.

Lemma publish_silent_iff_witness :
  snd (publish [sample_discharging] [Some ∅] [Some ∅]) = []
  <-> forall i r, [Some (∅ : CFDictionary)] !! i = Some (Some r) ->
                  [Some (∅ : CFDictionary)] !! i = Some (Some r).
Proof.
  apply (publish_silent_iff [sample_discharging] [Some ∅] [Some ∅]);
    reflexivity.
Defined.

Lemma expected_calls_same batteries (old : list (option CFDictionary)) :
  expected_calls batteries old old = [].
Proof.
  revert old. induction batteries as [|b batteries IH];
    intros [|o old]; cbn [expected_calls]; try reflexivity.
  rewrite IH, app_nil_r. destruct o as [r|]; [|reflexivity].
  unfold differs. rewrite bool_decide_eq_true_2 by reflexivity. reflexivity.
Qed.

Lemma expected_calls_one_change batteries (old : list (option CFDictionary))
  i b r' :
  batteries !! i = Some b -> (i < length old)%nat ->
  old !! i <> Some (Some r') ->
  expected_calls batteries (<[i := Some r']> old) old
  = [(dynamicStoreKey b, r')].
Proof.
  revert old i.
  induction batteries as [|b0 batteries IH]; intros [|o old] [|i] Hb Hi Hne;
    cbn [length] in Hi; try discriminate; try lia.
  - injection Hb as ->.
    change (<[0%nat := Some r']> (o :: old)) with (Some r' :: old).
    cbn [expected_calls]. rewrite expected_calls_same, app_nil_r.
    unfold differs.
    rewrite bool_decide_eq_false_2 by (intros ->; apply Hne; reflexivity).
    reflexivity.
  - change (<[S i := Some r']> (o :: old)) with (o :: <[i := Some r']> old).
    cbn [expected_calls].
    rewrite (IH old i Hb ltac:(lia) Hne).
    destruct o as [r|]; [|reflexivity].
    unfold differs. rewrite bool_decide_eq_true_2 by reflexivity. reflexivity.
Qed.

(** X13. When the records built are the retained ones but for the record
    of one battery, which has changed, the loop makes exactly one call:
    the new record, under the key of that battery. *)
Theorem publish_one_change
  (batteries : list IOPMBattery) (old : list (option CFDictionary))
  (i : nat) (b : IOPMBattery) (r' : CFDictionary) :
  length old = length batteries ->
  batteries !! i = Some b ->
  old !! i <> Some (Some r') ->
  snd (publish batteries (<[i := Some r']> old) old)
  = [(dynamicStoreKey b, r')].
Proof.
  intros Hlen Hb Hne.
  rewrite publish_spec by (rewrite ?length_insert; exact Hlen).
  cbn [snd]. apply expected_calls_one_change; try assumption.
  rewrite Hlen. eapply lookup_lt_Some. exact Hb.
Qed.

Lemma publish_one_change_witness :
  snd (publish [sample_discharging; sample_charging_full]
         (<[1%nat := Some {[ kIOPSNameKey := CFString "b" ]}]>
            [Some ∅; Some ∅])
         [Some ∅; Some ∅])
  = [(dynamicStoreKey sample_charging_full,
      {[ kIOPSNameKey := CFString "b" ]})].
Proof.
  apply (publish_one_change [sample_discharging; sample_charging_full]
           [Some ∅; Some ∅] 1 sample_charging_full).
  - reflexivity.
  - reflexivity.
  - intros H.
    apply (f_equal (fun o : option (option CFDictionary) =>
                      match o with
                      | Some (Some m) => m !! kIOPSNameKey
                      | _ => None
                      end)) in H.
    cbn [lookup list_lookup] in H.
    rewrite lookup_singleton_eq, lookup_empty in H. discriminate.
Defined.

(** ** The cycle as a whole *)

Lemma cycle_unfold indefinite now keyFound b rest st :
  let batteries := b :: rest in
  let g := cycle_globals now keyFound batteries st in
  let run := publish (cycle_battery indefinite g <$> batteries)
                     ((fun b => Some (cycle_record indefinite g b))
                        <$> batteries)
                     (cycle_old batteries st) in
  BatteryTimeRemainingBatteriesHaveChanged indefinite now keyFound
    batteries st
  = Some (mkPlugin g (externalConnected b) (isPresent b) (Some (fst run)),
          cycle_battery indefinite g <$> batteries,
          snd run).
Proof.
  cbv zeta.
  unfold BatteryTimeRemainingBatteriesHaveChanged, _populateTimeRemaining,
    _packageBatteryInfo.
  fold (cycle_globals now keyFound (b :: rest) st).
  change (match old_battery st with
          | Some old => old
          | None => old_battery_init (length (b :: rest))
          end) with (cycle_old (b :: rest) st).
  set (g := cycle_globals now keyFound (b :: rest) st).
  rewrite !map_map.
  change (map (fun x => snd (packageBatteryInfo_body g
                               (populateTimeRemaining_body indefinite g x)))
              (b :: rest))
    with (cycle_battery indefinite g <$> (b :: rest)).
  change (map (fun x => Some (fst (packageBatteryInfo_body g
                               (populateTimeRemaining_body indefinite g x))))
              (b :: rest))
    with ((fun b => Some (cycle_record indefinite g b)) <$> (b :: rest)).
  destruct (publish _ _ _) as [old' calls]. reflexivity.
Qed.

(** The estimate a cycle gives a battery. *)
Lemma populate_body_value indefinite g b :
  populateTimeRemaining_body indefinite g b
  = set_swCalculatedTR
      (if estimateInvalid g b then -1
       else
         let minutes := if _useBatteryTimeEstimate g then hwAverageTR b
                        else to_int indefinite (manualMinutes b) in
         if minutes <? 0 then -1
         else if 600 <? minutes then 600 else minutes)
      b.
Proof.
  unfold populateTimeRemaining_body.
  destruct (estimateInvalid g b); [reflexivity|]. cbv zeta.
  set (minutes := if _useBatteryTimeEstimate g then hwAverageTR b
                  else to_int indefinite (manualMinutes b)).
  assert (Hcap : forall m,
            capTimeRemaining (set_swCalculatedTR m b)
            = set_swCalculatedTR
                (if m <? 0 then -1 else if 600 <? m then 600 else m) b).
  { intros m. unfold capTimeRemaining, kMaxBattMinutes.
    cbn [swCalculatedTR set_swCalculatedTR].
    destruct (m <? 0); cbn [swCalculatedTR set_swCalculatedTR].
    - reflexivity.
    - destruct (600 <? m); reflexivity. }
  subst minutes. destruct (_useBatteryTimeEstimate g); apply Hcap.
Qed.

Lemma populate_body_commutes_latch indefinite g l b :
  populateTimeRemaining_body indefinite g (set_markedNeedsReplacement l b)
  = set_markedNeedsReplacement l (populateTimeRemaining_body indefinite g b).
Proof. rewrite !populate_body_value. reflexivity. Qed.

Lemma front_ignores_latch g l b :
  packageBatteryInfo_front g (set_markedNeedsReplacement l b)
  = packageBatteryInfo_front g b.
Proof. reflexivity. Qed.

(** Packaging the battery a packaging left behind gives the same record
    and the same battery. *)
Lemma package_settles g b :
  packageBatteryInfo_body g (snd (packageBatteryInfo_body g b))
  = packageBatteryInfo_body g b.
Proof.
  rewrite (package_body_split g b). cbn [snd].
  rewrite package_body_split.
  rewrite (classifier_frame (packageBatteryInfo_front g b) b) at 1 2 3 4 5 6.
  rewrite front_ignores_latch.
  rewrite <- (classifier_frame (packageBatteryInfo_front g b) b).
  rewrite (classifier_fixed_point (packageBatteryInfo_front g b) b).
  reflexivity.
Qed.

Lemma cycle_battery_frame indefinite g b :
  cycle_battery indefinite g b
  = set_markedNeedsReplacement
      (markedNeedsReplacement (cycle_battery indefinite g b))
      (populateTimeRemaining_body indefinite g b).
Proof.
  unfold cycle_battery. rewrite package_body_split. cbn [snd].
  apply classifier_frame.
Qed.

Lemma populate_body_idem indefinite g b :
  populateTimeRemaining_body indefinite g
    (populateTimeRemaining_body indefinite g b)
  = populateTimeRemaining_body indefinite g b.
Proof.
  rewrite (populate_body_frame indefinite g b) at 1.
  apply populate_body_ignores_estimate.
Qed.

(** A second pass over a battery a cycle left behind changes nothing. *)
Lemma cycle_settles indefinite g b :
  cycle_battery indefinite g (cycle_battery indefinite g b)
  = cycle_battery indefinite g b
  /\ cycle_record indefinite g (cycle_battery indefinite g b)
     = cycle_record indefinite g b.
Proof.
  assert (H : packageBatteryInfo_body g
                (populateTimeRemaining_body indefinite g
                   (cycle_battery indefinite g b))
              = packageBatteryInfo_body g
                  (populateTimeRemaining_body indefinite g b)).
  { rewrite (cycle_battery_frame indefinite g b) at 1.
    rewrite populate_body_commutes_latch, populate_body_idem.
    rewrite <- cycle_battery_frame. unfold cycle_battery.
    apply package_settles. }
  unfold cycle_battery at 1, cycle_record at 1. rewrite H. split; reflexivity.
Qed.

Lemma cycle_battery_fields indefinite g b :
  externalConnected (cycle_battery indefinite g b) = externalConnected b
  /\ isPresent (cycle_battery indefinite g b) = isPresent b
  /\ dynamicStoreKey (cycle_battery indefinite g b) = dynamicStoreKey b.
Proof.
  rewrite cycle_battery_frame, populate_body_frame. repeat split.
Qed.

Lemma cycle_old_length batteries st :
  (forall old, old_battery st = Some old -> length old = length batteries) ->
  length (cycle_old batteries st) = length batteries.
Proof.
  intros H. unfold cycle_old, old_battery_init.
  destruct (old_battery st) as [old|]; [apply H; reflexivity|].
  apply length_replicate.
Qed.

Lemma expected_retained_all_built {A} (f : A -> CFDictionary) (l : list A)
  (old : list (option CFDictionary)) :
  length old = length l ->
  expected_retained ((fun x => Some (f x)) <$> l) old
  = (fun x => Some (f x)) <$> l.
Proof.
  revert old. induction l as [|x l IH]; intros [|o old] Hlen;
    simpl in *; try discriminate; [reflexivity|].
  f_equal. apply IH. lia.
Qed.

(** What a cycle over at least one battery yields, with the loop replaced
    by its description. *)
Lemma cycle_spec indefinite now keyFound b rest st :
  let batteries := b :: rest in
  let g := cycle_globals now keyFound batteries st in
  let result := (fun b => Some (cycle_record indefinite g b)) <$> batteries in
  (forall old, old_battery st = Some old -> length old = length batteries) ->
  BatteryTimeRemainingBatteriesHaveChanged indefinite now keyFound
    batteries st
  = Some (mkPlugin g (externalConnected b) (isPresent b) (Some result),
          cycle_battery indefinite g <$> batteries,
          expected_calls (cycle_battery indefinite g <$> batteries) result
                         (cycle_old batteries st)).
Proof.
  intros batteries g result Hold.
  pose proof (cycle_old_length batteries st Hold) as Hlen.
  unfold batteries. rewrite cycle_unfold. fold batteries. fold g. fold result.
  rewrite publish_spec by (unfold result; rewrite !length_fmap; auto).
  cbn [fst snd]. unfold result at 1.
  rewrite expected_retained_all_built by exact Hlen. reflexivity.
Qed.

(** X14. The first cycle over at least one battery, when nothing has
    been retained yet, publishes every battery: one call per battery, in
    order, each under the battery's key; and the records retained
    afterwards are the records sent. *)
Theorem first_cycle_publishes_all
  (indefinite : Z) (now : double) (keyFound : bool)
  (batteries : list IOPMBattery) (st : Plugin) :
  batteries <> [] ->
  old_battery st = None ->
  exists st' batteries' calls,
    BatteryTimeRemainingBatteriesHaveChanged indefinite now keyFound
      batteries st = Some (st', batteries', calls)
    /\ fst <$> calls = dynamicStoreKey <$> batteries
    /\ length calls = length batteries
    /\ old_battery st' = Some ((fun c => Some (snd c)) <$> calls).
Proof.
  intros Hne Hold. destruct batteries as [|b rest]; [contradiction|].
  eexists _, _, _. split.
  { apply cycle_spec. intros old H. congruence. }
  set (g := cycle_globals now keyFound (b :: rest) st).
  unfold cycle_old. rewrite Hold.
  assert (Hcalls :
    expected_calls (cycle_battery indefinite g <$> (b :: rest))
      ((fun b => Some (cycle_record indefinite g b)) <$> (b :: rest))
      (old_battery_init (length (b :: rest)))
    = (fun b => (dynamicStoreKey b, cycle_record indefinite g b))
        <$> (b :: rest)).
  { generalize (b :: rest). intros l. unfold old_battery_init.
    induction l as [|x l IH]; [reflexivity|].
    cbn [fmap list_fmap length replicate expected_calls].
    change (list_fmap _ _ ?f l) with (f <$> l).
    rewrite IH.
    destruct (cycle_battery_fields indefinite g x) as (_ & _ & ->).
    reflexivity. }
  rewrite Hcalls. cbn [old_battery].
  rewrite <- !list_fmap_compose, length_fmap. repeat split.
Qed.

Lemma first_cycle_publishes_all_witness :
  exists st' batteries' calls,
    BatteryTimeRemainingBatteriesHaveChanged 0 (of_Z 0) false
      [sample_discharging; sample_charging_full] plugin_init
    = Some (st', batteries', calls)
    /\ fst <$> calls
       = dynamicStoreKey <$> [sample_discharging; sample_charging_full]
    /\ length calls = 2%nat
    /\ old_battery st' = Some ((fun c => Some (snd c)) <$> calls).
Proof.
  apply (first_cycle_publishes_all 0 (of_Z 0) false
           [sample_discharging; sample_charging_full] plugin_init).
  - discriminate.
  - reflexivity.
Defined.

(** X15. A cycle that follows another on the batteries the first one left
    behind publishes nothing, whenever it runs and whatever the 'BALG' key
    then reads: it makes no call and leaves the statics and the batteries
    as they are. *)
Theorem second_cycle_publishes_nothing
  (indefinite : Z) (now1 now2 : double) (keyFound1 keyFound2 : bool)
  (batteries batteries1 : list IOPMBattery) (st st1 : Plugin)
  (calls1 : list StoreCall) :
  (forall old, old_battery st = Some old -> length old = length batteries) ->
  BatteryTimeRemainingBatteriesHaveChanged indefinite now1 keyFound1
    batteries st = Some (st1, batteries1, calls1) ->
  BatteryTimeRemainingBatteriesHaveChanged indefinite now2 keyFound2
    batteries1 st1 = Some (st1, batteries1, []).
Proof.
  intros Hold Hrun. destruct batteries as [|b rest]; [discriminate|].
  rewrite cycle_spec in Hrun by exact Hold.
  set (g := cycle_globals now1 keyFound1 (b :: rest) st) in *.
  apply (inj Some) in Hrun.
  apply pair_equal_spec in Hrun as [Hrun _].
  apply pair_equal_spec in Hrun as [Hst Hb1]. subst st1 batteries1.
  rewrite fmap_cons.
  destruct (cycle_battery_fields indefinite g b) as (Hext & Hpres & _).
  assert (Hg : cycle_globals now2 keyFound2
                 (cycle_battery indefinite g b
                  :: (cycle_battery indefinite g <$> rest))
                 (mkPlugin g (externalConnected b) (isPresent b)
                    (Some ((fun b => Some (cycle_record indefinite g b))
                             <$> (b :: rest))))
               = g).
  { unfold cycle_globals at 1. cbn [_lastExternal _lastIsPresent plugin_globals].
    rewrite Hext, Hpres, xorb_nilpotent, andb_negb_r. reflexivity. }
  rewrite cycle_spec.
  2:{ cbn [old_battery]. intros old Hsome. apply (inj Some) in Hsome.
      subst old. rewrite length_fmap. cbn [length].
      rewrite length_fmap. reflexivity. }
  rewrite Hg. rewrite <- fmap_cons.
  assert (Hb : cycle_battery indefinite g <$> (cycle_battery indefinite g
                                                  <$> (b :: rest))
               = cycle_battery indefinite g <$> (b :: rest)).
  { rewrite <- list_fmap_compose. apply list_fmap_ext. intros i x _.
    apply cycle_settles. }
  assert (Hr : (fun b => Some (cycle_record indefinite g b))
                 <$> (cycle_battery indefinite g <$> (b :: rest))
               = (fun b => Some (cycle_record indefinite g b)) <$> (b :: rest)).
  { rewrite <- list_fmap_compose. apply list_fmap_ext. intros i x _.
    simpl. f_equal. apply cycle_settles. }
  rewrite Hb, Hr, Hext, Hpres.
  unfold cycle_old. cbn [old_battery].
  rewrite expected_calls_same. reflexivity.
Qed.

Lemma second_cycle_publishes_nothing_witness :
  exists st1 batteries1 calls1,
    BatteryTimeRemainingBatteriesHaveChanged 0 (of_Z 0) false
      [sample_degraded] plugin_init = Some (st1, batteries1, calls1)
    /\ markedNeedsReplacement <$> batteries1 = [true]
    /\ BatteryTimeRemainingBatteriesHaveChanged 0 (of_Z 7) true batteries1 st1
       = Some (st1, batteries1, []).
Proof.
  eexists _, _, _. split; [|split].
  - apply cycle_spec. intros old H. discriminate H.
  - vm_compute. reflexivity.
  - eapply (second_cycle_publishes_nothing 0 (of_Z 0) (of_Z 7) false true
              [sample_degraded] _ plugin_init).
    + intros old H. discriminate H.
    + apply cycle_spec. intros old H. discriminate H.
Defined.

(** Every call of the loop carries the record built for one of the
    batteries, under that battery's key. *)
Lemma expected_calls_records
  (f : IOPMBattery -> IOPMBattery) (r : IOPMBattery -> CFDictionary)
  (bs : list IOPMBattery) (old : list (option CFDictionary)) :
  Forall (fun c => exists b, b ∈ bs /\ c = (dynamicStoreKey (f b), r b))
         (expected_calls (f <$> bs) ((fun b => Some (r b)) <$> bs) old).
Proof.
  revert old. induction bs as [|b bs IH]; intros old; [constructor|].
  destruct old as [|o old]; [constructor|].
  rewrite !fmap_cons. cbn [expected_calls].
  apply Forall_app. split.
  - destruct (differs o (r b)); [|constructor].
    constructor; [|constructor]. exists b. split; [left|reflexivity].
  - eapply Forall_impl; [apply IH|]. intros c (b' & Hin & ->).
    exists b'. split; [right; exact Hin|reflexivity].
Qed.

Lemma cycle_calls_records indefinite now keyFound batteries st
  st' batteries' calls :
  (forall old, old_battery st = Some old -> length old = length batteries) ->
  BatteryTimeRemainingBatteriesHaveChanged indefinite now keyFound
    batteries st = Some (st', batteries', calls) ->
  plugin_globals st' = cycle_globals now keyFound batteries st
  /\ batteries' = cycle_battery indefinite (plugin_globals st') <$> batteries
  /\ Forall (fun c => exists b, b ∈ batteries
                       /\ c = (dynamicStoreKey b,
                               cycle_record indefinite (plugin_globals st') b))
            calls.
Proof.
  intros Hold Hrun. destruct batteries as [|b rest]; [discriminate|].
  rewrite cycle_spec in Hrun by exact Hold.
  apply (inj Some) in Hrun.
  apply pair_equal_spec in Hrun as [Hrun Hc].
  apply pair_equal_spec in Hrun as [Hst Hb]. subst st' batteries' calls.
  cbn [plugin_globals]. split; [reflexivity|]. split; [reflexivity|].
  eapply Forall_impl; [apply expected_calls_records|].
  intros c (b' & Hin & ->). exists b'. split; [exact Hin|].
  destruct (cycle_battery_fields indefinite
              (cycle_globals now keyFound (b :: rest) st) b') as (_ & _ & ->).
  reflexivity.
Qed.

(** The two times of a record lie where the estimate lies. *)
Lemma record_times_range g b :
  swCalculatedTR b = -1 \/ 0 <= swCalculatedTR b <= 600 ->
  exists toFull toEmpty,
    fst (packageBatteryInfo_body g b) !! kIOPSTimeToFullChargeKey
    = Some (CFNumber toFull)
    /\ fst (packageBatteryInfo_body g b) !! kIOPSTimeToEmptyKey
       = Some (CFNumber toEmpty)
    /\ (toFull = -1 \/ 0 <= toFull <= 600)
    /\ (toEmpty = -1 \/ 0 <= toEmpty <= 600).
Proof.
  intros Hr. rewrite !package_lookup_front by discriminate.
  unfold packageBatteryInfo_front, setTimes.
  destruct (negb (isPresent b));
    [|destruct (-1 =? swCalculatedTR b);
      [|destruct (isCharging b); [|destruct (externalConnected b)]]];
    eexists _, _; (split; [dict_lookup; reflexivity|]);
    (split; [dict_lookup; reflexivity|]); split; auto; lia.
Qed.

Lemma populate_body_range indefinite g b :
  swCalculatedTR (populateTimeRemaining_body indefinite g b) = -1
  \/ 0 <= swCalculatedTR (populateTimeRemaining_body indefinite g b) <= 600.
Proof.
  unfold populateTimeRemaining_body.
  destruct (estimateInvalid g b); [left; reflexivity|].
  apply capTimeRemaining_range.
Qed.

(** X16. In whatever state the plugin is, every call a cycle makes on the
    dynamic store carries a time to full charge and a time to empty that
    are each -1 or between 0 and 600 minutes. *)
Theorem published_times_in_range
  (indefinite : Z) (now : double) (keyFound : bool)
  (batteries batteries' : list IOPMBattery) (st st' : Plugin)
  (calls : list StoreCall) :
  (forall old, old_battery st = Some old -> length old = length batteries) ->
  BatteryTimeRemainingBatteriesHaveChanged indefinite now keyFound
    batteries st = Some (st', batteries', calls) ->
  Forall (fun c =>
            exists toFull toEmpty,
              snd c !! kIOPSTimeToFullChargeKey = Some (CFNumber toFull)
              /\ snd c !! kIOPSTimeToEmptyKey = Some (CFNumber toEmpty)
              /\ (toFull = -1 \/ 0 <= toFull <= 600)
              /\ (toEmpty = -1 \/ 0 <= toEmpty <= 600))
         calls.
Proof.
  intros Hold Hrun.
  destruct (cycle_calls_records _ _ _ _ _ _ _ _ Hold Hrun) as (_ & _ & Hcalls).
  eapply Forall_impl; [exact Hcalls|].
  intros c (b & _ & ->). cbn [snd]. unfold cycle_record.
  apply record_times_range, populate_body_range.
Qed.

Lemma published_times_in_range_witness :
  Forall (fun c =>
            exists toFull toEmpty,
              snd c !! kIOPSTimeToFullChargeKey = Some (CFNumber toFull)
              /\ snd c !! kIOPSTimeToEmptyKey = Some (CFNumber toEmpty)
              /\ (toFull = -1 \/ 0 <= toFull <= 600)
              /\ (toEmpty = -1 \/ 0 <= toEmpty <= 600))
    [(dynamicStoreKey sample_discharging,
      cycle_record 0 (cycle_globals (of_Z 0) false [sample_discharging] plugin_init)
        sample_discharging)].
Proof.
  eapply (published_times_in_range 0 (of_Z 0) false [sample_discharging] _
            plugin_init).
  - intros old H. discriminate H.
  - rewrite cycle_spec by (intros old H; discriminate H). reflexivity.
Defined.

Lemma cycle_battery_estimate indefinite g b :
  swCalculatedTR (cycle_battery indefinite g b)
  = swCalculatedTR (populateTimeRemaining_body indefinite g b).
Proof. rewrite cycle_battery_frame. reflexivity. Qed.

Lemma suppressed_record indefinite g b :
  _ignoringTimeRemainingEstimates g = true ->
  let d := cycle_record indefinite g b in
  d !! kWaitingForTRKey = Some kCFBooleanTrue
  /\ (d !! kIOPSIsPresentKey = Some kCFBooleanTrue ->
      d !! kIOPSTimeToFullChargeKey = Some (CFNumber (-1))
      /\ d !! kIOPSTimeToEmptyKey = Some (CFNumber (-1))).
Proof.
  intros Hflag. cbv zeta. unfold cycle_record.
  rewrite populate_rejected
    by (rewrite estimateInvalid_unfold, Hflag; apply orb_true_r).
  rewrite !package_lookup_front by discriminate.
  unfold packageBatteryInfo_front. rewrite Hflag.
  change (isPresent (set_swCalculatedTR (-1) b)) with (isPresent b).
  split.
  - destruct (_useBatteryTimeEstimate g), (failureDetected _), (chargeStatus _);
      dict_lookup; reflexivity.
  - unfold setTimes.
    change (isPresent (set_swCalculatedTR (-1) b)) with (isPresent b).
    change (swCalculatedTR (set_swCalculatedTR (-1) b)) with (-1).
    destruct (isPresent b); cbn [negb].
    + intros _. rewrite Z.eqb_refl. split; dict_lookup; reflexivity.
    + dict_lookup. discriminate.
Qed.

(** X17. A cycle that finds the primary battery on another power source
    than the cycle before sets [_ignoringTimeRemainingEstimates], puts
    [_estimatesInvalidUntil] at the sum, in doubles, of the present time
    and the primary battery's [invalidWakeSecs], and leaves every battery
    with the estimate -1; every record it sends is marked as waiting for
    estimates, and gives -1 for both times if it is the record of a
    battery that is present. *)
Theorem power_source_change_suppresses
  (indefinite : Z) (now : double) (keyFound : bool)
  (b : IOPMBattery) (rest batteries' : list IOPMBattery) (st st' : Plugin)
  (calls : list StoreCall) :
  (forall old, old_battery st = Some old -> length old = length (b :: rest)) ->
  xorb (_lastExternal st) (externalConnected b) = true ->
  BatteryTimeRemainingBatteriesHaveChanged indefinite now keyFound
    (b :: rest) st = Some (st', batteries', calls) ->
  _ignoringTimeRemainingEstimates (plugin_globals st') = true
  /\ _estimatesInvalidUntil (plugin_globals st')
     = add now (of_Z (invalidWakeSecs b))
  /\ Forall (fun x => swCalculatedTR x = -1) batteries'
  /\ Forall (fun c =>
               snd c !! kWaitingForTRKey = Some kCFBooleanTrue
               /\ (snd c !! kIOPSIsPresentKey = Some kCFBooleanTrue ->
                   snd c !! kIOPSTimeToFullChargeKey = Some (CFNumber (-1))
                   /\ snd c !! kIOPSTimeToEmptyKey = Some (CFNumber (-1))))
            calls.
Proof.
  intros Hold Hx Hrun.
  destruct (cycle_calls_records _ _ _ _ _ _ _ _ Hold Hrun)
    as (Hg & Hb & Hcalls).
  assert (Hflag : _ignoringTimeRemainingEstimates (plugin_globals st') = true
                  /\ _estimatesInvalidUntil (plugin_globals st')
                     = add now (of_Z (invalidWakeSecs b))).
  { rewrite Hg. unfold cycle_globals. rewrite Hx.
    destruct (isPresent b && negb (_lastIsPresent st)); split; reflexivity. }
  destruct Hflag as [Hflag Huntil].
  split; [exact Hflag|]. split; [exact Huntil|]. split.
  - rewrite Hb. apply Forall_fmap, Forall_forall. intros x _. simpl.
    rewrite cycle_battery_estimate, populate_rejected; [reflexivity|].
    rewrite estimateInvalid_unfold, Hflag. apply orb_true_r.
  - eapply Forall_impl; [exact Hcalls|].
    intros c (x & _ & ->). cbn [snd].
    apply suppressed_record. exact Hflag.
Qed.

Lemma power_source_change_suppresses_witness :
  Forall (fun x => swCalculatedTR x = -1)
    (cycle_battery 0 (cycle_globals (of_Z 5) false [sample_charging_full] plugin_init)
       <$> [sample_charging_full]).
Proof.
  eapply (power_source_change_suppresses 0 (of_Z 5) false sample_charging_full []
            _ plugin_init).
  - intros old H. discriminate H.
  - reflexivity.
  - apply cycle_spec. intros old H. discriminate H.
Defined.

Lemma expected_calls_all_differ
  (f : IOPMBattery -> IOPMBattery) (r : IOPMBattery -> CFDictionary)
  (bs : list IOPMBattery) (old : list (option CFDictionary)) :
  length old = length bs ->
  Forall (fun o => forall b, o <> Some (r b)) old ->
  expected_calls (f <$> bs) ((fun b => Some (r b)) <$> bs) old
  = (fun b => (dynamicStoreKey (f b), r b)) <$> bs.
Proof.
  revert old. induction bs as [|b bs IH]; intros [|o old] Hlen Hall;
    cbn [length] in Hlen; try discriminate; [reflexivity|].
  apply Forall_cons in Hall as [Ho Hall].
  rewrite !fmap_cons. cbn [expected_calls].
  rewrite IH by (try assumption; lia).
  unfold differs. rewrite bool_decide_eq_false_2 by apply Ho. reflexivity.
Qed.

(** X18. When the timer fires and the retained records are all marked as
    waiting for estimates, as a cycle under suppression leaves them, and
    the power source is the one last seen, the callback clears
    [_ignoringTimeRemainingEstimates] and the timer and publishes every
    battery anew, one call each under the battery's key, none of the
    records marked as waiting. *)
Theorem timer_expiry_republishes
  (indefinite : Z) (now : double) (keyFound : bool)
  (b : IOPMBattery) (rest batteries' : list IOPMBattery) (st st' : Plugin)
  (old : list (option CFDictionary)) (calls : list StoreCall) :
  old_battery st = Some old ->
  length old = length (b :: rest) ->
  Forall (fun o => exists d, o = Some d
                    /\ d !! kWaitingForTRKey = Some kCFBooleanTrue) old ->
  xorb (_lastExternal st) (externalConnected b) = false ->
  timeRemainingMaybeValid_callback indefinite now keyFound (b :: rest) st
  = Some (st', batteries', calls) ->
  _ignoringTimeRemainingEstimates (plugin_globals st') = false
  /\ _timeSettledTimer (plugin_globals st') = None
  /\ fst <$> calls = dynamicStoreKey <$> (b :: rest)
  /\ Forall (fun c => snd c !! kWaitingForTRKey = None) calls.
Proof.
  intros Hold Hlen Hwait Hx Hrun. unfold timeRemainingMaybeValid_callback in Hrun.
  rewrite cycle_spec in Hrun
    by (cbn [old_battery]; intros o H; congruence).
  set (st0 := mkPlugin (_timeRemainingMaybeValid (plugin_globals st))
                (_lastExternal st) (_lastIsPresent st) (old_battery st)) in *.
  set (g := cycle_globals now keyFound (b :: rest) st0) in *.
  assert (Hg : _ignoringTimeRemainingEstimates g = false
               /\ _timeSettledTimer g = None).
  { subst g. unfold cycle_globals, st0.
    cbn [_lastExternal _lastIsPresent plugin_globals]. rewrite Hx.
    destruct (isPresent b && negb (_lastIsPresent st)); split; reflexivity. }
  destruct Hg as [Hflag Htimer].
  assert (Hrec : forall x, cycle_record indefinite g x !! kWaitingForTRKey
                           = None).
  { intros x. unfold cycle_record.
    rewrite package_lookup_front by discriminate.
    unfold packageBatteryInfo_front. rewrite Hflag.
    destruct (_useBatteryTimeEstimate g), (failureDetected _),
      (chargeStatus _); dict_lookup; reflexivity. }
  assert (Hcalls :
    expected_calls (cycle_battery indefinite g <$> (b :: rest))
      ((fun b => Some (cycle_record indefinite g b)) <$> (b :: rest))
      (cycle_old (b :: rest) st0)
    = (fun x => (dynamicStoreKey (cycle_battery indefinite g x),
                 cycle_record indefinite g x)) <$> (b :: rest)).
  { apply expected_calls_all_differ.
    - unfold cycle_old, st0. cbn [old_battery]. rewrite Hold. exact Hlen.
    - unfold cycle_old, st0. cbn [old_battery]. rewrite Hold.
      eapply Forall_impl; [exact Hwait|].
      intros o (d & -> & Hd) x Heq. apply (inj Some) in Heq. subst d.
      rewrite Hrec in Hd. discriminate. }
  rewrite Hcalls in Hrun.
  apply (inj Some) in Hrun.
  apply pair_equal_spec in Hrun as [Hrun Hc].
  apply pair_equal_spec in Hrun as [Hst _]. subst st' calls.
  cbn [plugin_globals].
  split; [exact Hflag|]. split; [exact Htimer|]. split.
  - rewrite <- list_fmap_compose. apply list_fmap_ext. intros i x _. simpl.
    apply cycle_battery_fields.
  - apply Forall_fmap, Forall_forall. intros x _. simpl. apply Hrec.
Qed.

(** The sample battery on its charger: suppressed at 5, released at 35. *)
Lemma timer_expiry_republishes_witness :
  let g1 := cycle_globals (of_Z 5) false [sample_charging_full] plugin_init in
  let record1 := cycle_record 0 g1 sample_charging_full in
  let st1 := mkPlugin g1 true true (Some [Some record1]) in
  exists st' batteries' calls,
    timeRemainingMaybeValid_callback 0 (of_Z 35) false [sample_charging_full] st1
    = Some (st', batteries', calls)
    /\ _ignoringTimeRemainingEstimates (plugin_globals st') = false
    /\ fst <$> calls = [dynamicStoreKey sample_charging_full].
Proof.
  intros g1 record1 st1.
  set (st0 := mkPlugin (_timeRemainingMaybeValid g1) true true
                (Some [Some record1])).
  assert (Hside : forall old, old_battery st0 = Some old ->
                    length old = length [sample_charging_full]).
  { intros old H. apply (inj Some) in H. subst old. reflexivity. }
  pose proof (cycle_spec 0 (of_Z 35) false sample_charging_full [] st0 Hside) as Hrun.
  cbv zeta in Hrun.
  assert (Hwait : Forall (fun o => exists d, o = Some d
                    /\ d !! kWaitingForTRKey = Some kCFBooleanTrue)
                    [Some record1]).
  { constructor; [|constructor]. exists record1. split; [reflexivity|].
    vm_compute. reflexivity. }
  eexists _, _, _. split; [exact Hrun|].
  destruct (timer_expiry_republishes 0 (of_Z 35) false sample_charging_full [] _
              st1 _ [Some record1] _ eq_refl eq_refl Hwait eq_refl Hrun)
    as (Hflag & _ & Hkeys & _).
  split; [exact Hflag|exact Hkeys].
Defined.

(** X20. A cycle decides anew whether the battery's own estimate is
    trusted only when it finds the primary battery present and the cycle
    before did not: the decision is then that the 'BALG' key is readable
    and the battery reports TimeRemaining. In every other cycle the
    decision stands, a change of power source notwithstanding. The cycle
    records the power source and the presence it found. *)
Theorem trust_decided_on_insertion
  (indefinite : Z) (now : double) (keyFound : bool)
  (b : IOPMBattery) (rest batteries' : list IOPMBattery) (st st' : Plugin)
  (calls : list StoreCall) :
  BatteryTimeRemainingBatteriesHaveChanged indefinite now keyFound
    (b :: rest) st = Some (st', batteries', calls) ->
  _useBatteryTimeEstimate (plugin_globals st')
  = (if isPresent b && negb (_lastIsPresent st)
     then keyFound && _batteryHas b kIOPMPSTimeRemainingKey
     else _useBatteryTimeEstimate (plugin_globals st))
  /\ _lastIsPresent st' = isPresent b
  /\ _lastExternal st' = externalConnected b.
Proof.
  intros Hrun. rewrite cycle_unfold in Hrun.
  apply (inj Some) in Hrun.
  apply pair_equal_spec in Hrun as [Hrun _].
  apply pair_equal_spec in Hrun as [Hst _]. subst st'.
  cbn [plugin_globals _lastIsPresent _lastExternal].
  split; [|split; reflexivity].
  unfold cycle_globals.
  destruct (isPresent b && negb (_lastIsPresent st)); [reflexivity|].
  destruct (xorb (_lastExternal st) (externalConnected b)); reflexivity.
Qed.

Lemma trust_decided_on_insertion_witness :
  _useBatteryTimeEstimate
    (cycle_globals (of_Z 0) true [sample_discharging] plugin_init) = false.
Proof.
  pose proof (cycle_unfold 0 (of_Z 0) true sample_discharging [] plugin_init)
    as Hrun.
  cbv zeta in Hrun.
  destruct (trust_decided_on_insertion 0 (of_Z 0) true sample_discharging []
              _ plugin_init _ _ Hrun) as [Huse _].
  exact Huse.
Defined.

(** ** More on the privileged commands *)

Module UserClientMore.

Import UserClient.

(** X19. [secureInflowDisable] and [secureChargeInhibit] enter the control
    surface exactly when the level is 0 or 1, [clientHasPrivilege] answers
    success and the client has its owner; they then enter it once, with
    the level they were given, and hand the caller what it answers. In
    every other case the control surface is left alone. The value the
    methods return themselves is success in all cases. *)
Theorem control_surface_entered_iff
  (this : AppleSmartBatteryManagerUserClient) (level : Z) :
  let allowed :=
    ((level =? 0) || (level =? 1))
    && (clientHasPrivilege this =? kIOReturnSuccess)
    && bool_decide (is_Some (fOwner this)) in
  returned (secureInflowDisable this level) = kIOReturnSuccess
  /\ returned (secureChargeInhibit this level) = kIOReturnSuccess
  /\ filter (fun e => invokesControlSurface e = true)
            (effects (secureInflowDisable this level))
     = (if allowed then [DisableInflow level] else [])
  /\ filter (fun e => invokesControlSurface e = true)
            (effects (secureChargeInhibit this level))
     = (if allowed then [InhibitCharging level] else [])
  /\ (forall owner, allowed = true -> fOwner this = Some owner ->
        return_code (secureInflowDisable this level)
        = disableInflow owner level
        /\ return_code (secureChargeInhibit this level)
           = inhibitCharging owner level).
Proof.
  cbv zeta. unfold secureInflowDisable, secureChargeInhibit.
  rewrite (Z.eqb_sym (clientHasPrivilege this) kIOReturnSuccess).
  destruct ((level =? 0) || (level =? 1)); cbn [negb andb];
    [|repeat split; intros; discriminate].
  destruct (kIOReturnSuccess =? clientHasPrivilege this); cbn [andb];
    [|repeat split; intros; discriminate].
  destruct (fOwner this) as [owner|]; cbn [andb];
    [|repeat split; intros; discriminate].
  do 4 (split; [reflexivity|]).
  intros owner' _ [= <-]. split; reflexivity.
Qed.

Lemma control_surface_entered_iff_witness :
  return_code (secureInflowDisable sample_admin_client 1)
  = disableInflow sample_manager 1.
Proof.
  destruct (control_surface_entered_iff sample_admin_client 1)
    as (_ & _ & _ & _ & H).
  apply (H sample_manager eq_refl eq_refl).
Defined.

End UserClientMore.
